(** * Detective Quest: clue ledger, suspect index, exploration and verdict

    A shallow embedding of [trabalhoDetectiveQuest.c].

    Conventions of the embedding.
    - A C string is a [string]: the bytes that precede the terminating NUL.
      Bytes are compared as [unsigned char], as [strcmp] does.
    - A pointer that may be [NULL] is an [option] (for [const char *]) or an
      inductive type with a null constructor (for the linked structures).
    - [malloc] is assumed to succeed: the [exit(EXIT_FAILURE)] paths are the
      host-resource failures and are not part of the model. [strdup_safe]
      copies a string, so it is the identity here.
    - [unsigned long] is 64 bits wide and wraps around; the [int] tally of
      [count_clues_for_suspect] is an integer, and [count_clues_bounds]
      shows that it never exceeds the number of nodes of the ledger.
    - Console output is a trace of events, one constructor per [printf];
      the standard input is the list of the buffers that the successive
      [fgets] calls deliver, and an exhausted list is end-of-input.
    - The judgment is embedded a second time, in [Ptr], on the linked
      structures as cells of a memory reached through addresses, so that
      what it writes can be stated; [rep_tree] and [rep_table] relate the
      memory to the values of the first embedding. *)

From Stdlib Require Import ZArith Ascii String Lia.
From stdpp Require Import base list sorting strings gmap.

Open Scope string_scope.
Open Scope Z_scope.
Open Scope list_scope.

(** ** C strings *)


(** The value of a byte read through [unsigned char]. *)
Definition uchar (c : ascii) : Z := Z.of_N (N_of_ascii c).

(** [strcmp]: only the sign of the result is specified by the C standard,
    so the result is a [comparison]. The terminator is smaller than every
    byte of a string's contents. *)
Fixpoint strcmp (s1 s2 : string) : comparison :=
  match s1, s2 with
  | EmptyString, EmptyString => Eq
  | EmptyString, String _ _ => Lt
  | String _ _, EmptyString => Gt
  | String c1 t1, String c2 t2 =>
      match uchar c1 ?= uchar c2 with
      | Eq => strcmp t1 t2
      | Lt => Lt
      | Gt => Gt
      end
  end.

(** [strlen]. *)
Definition strlen (s : string) : Z := Z.of_nat (String.length s).

Definition newline : ascii := ascii_of_nat 10.

(** [trim_newline]: drops a final line feed, if there is one. *)
Fixpoint trim_newline (s : string) : string :=
  match s with
  | EmptyString => EmptyString
  | String c EmptyString => if Ascii.eqb c newline then EmptyString else s
  | String c t => String c (trim_newline t)
  end.

(** The test [strcmp(a, b) == 0]. *)
Definition streq (s1 s2 : string) : bool :=
  match strcmp s1 s2 with Eq => true | _ => false end.

(** ** Constants *)

Definition HASH_SIZE : Z := 101.

(** The size of the two input buffers: a buffer that [fgets] delivers holds
    at most [MAX_INPUT - 1] bytes. Nothing below depends on that bound. *)
Definition MAX_INPUT : Z := 256.

(** Width of [unsigned long] (LP64). *)
Definition ULONG_BITS : Z := 64.
(** Width of [unsigned int]. *)
Definition UINT_BITS : Z := 32.

(** ** Structures *)

(** [Room *]: a null pointer, or a room with its name and two exits. *)
Inductive Room : Type :=
| RoomNULL
| RoomNode (name : string) (left right : Room).

(** [ClueNode *]: a null pointer, or a node of the tree of clues. *)
Inductive ClueNode : Type :=
| ClueNULL
| ClueTree (clue : string) (left right : ClueNode).

(** One [HashEntry]; the [next] pointers of a bucket make a [list]. *)
Record HashEntry : Type := mkEntry { key : string; suspect : string }.

(** [HashEntry *table[HASH_SIZE]]: the array of the buckets' chains. *)
Abbreviation Table := (list (list HashEntry)).

(** ** Console *)

(** One constructor per message that the program prints. *)
Inductive Msg : Type :=
| MsgInicioExploracao                 (* --- Início da exploração da mansão --- *)
| MsgSala (name : string)             (* Você está na sala: %s *)
| MsgPistaEncontrada (clue : string)  (* > Pista encontrada: "%s" *)
| MsgPistaAdicionada                  (* Pista adicionada ao caderno do jogador. *)
| MsgSemPistas                        (* Não há pistas aparentes nesta sala. *)
| MsgEscolha                          (* Escolha: (e) esquerdo, (d) direito, (s) sair da exploração *)
| MsgPrompt                           (* > *)
| MsgSemEsquerda                      (* Não há sala à esquerda. *)
| MsgSemDireita                       (* Não há sala à direita. *)
| MsgSaindo                           (* Saindo da exploração... *)
| MsgOpcaoInvalida                    (* Opção inválida. Use e, d ou s. *)
| MsgFimExploracao                    (* --- Fim da exploração --- *)
| MsgNenhumaPista                     (* Nenhuma pista foi coletada. Não é possível acusar com fundamento. *)
| MsgPistasColetadas                  (* Pistas coletadas: *)
| MsgItem (clue : string)             (*  - %s *)
| MsgDigiteSuspeito                   (* Digite o nome do suspeito que você deseja acusar: *)
| MsgNenhumSuspeito                   (* Nenhum suspeito informado. Encerrando julgamento. *)
| MsgAcusou (accused : string)        (* Você acusou: %s *)
| MsgContagem (accused : string) (count : Z)  (* Pistas que apontam para %s: %d *)
| MsgAcusacaoValida                   (* DESFECHO: Acusação válida! ... *)
| MsgAcusacaoFraca                    (* DESFECHO: Acusação fraca. ... *)
| MsgObrigado.                        (* Obrigado por jogar Detective Quest! *)

(** What a run leaves behind, in order: the lines printed, and the calls
    of [encontrarSuspeito] with the clue that was looked up. *)
Inductive Event : Type :=
| Printf (m : Msg)
| Consulta (pista : string).

(** A computation that yields a value and appends to the trace. *)
Definition W (A : Type) : Type := (A * list Event)%type.

#[global] Instance W_ret : MRet W := λ A a, (a, []).
#[global] Instance W_bind : MBind W := λ A B f m,
  let '(b, t2) := f (fst m) in (b, snd m ++ t2).

Definition printf (m : Msg) : W unit := (tt, [Printf m]).

(** ** The mansion *)

(** [criarSala]. *)
Definition criarSala (name : string) : Room := RoomNode name RoomNULL RoomNULL.

(** The assignments [r->left = x] and [r->right = x]. *)
Definition set_left (r x : Room) : Room :=
  match r with
  | RoomNULL => RoomNULL
  | RoomNode name _ r => RoomNode name x r
  end.
Definition set_right (r x : Room) : Room :=
  match r with
  | RoomNULL => RoomNULL
  | RoomNode name l _ => RoomNode name l x
  end.

(** [construirMansao]. The C code links the rooms through pointers, top
    down; here each room is completed before it is linked to its parent. *)
Definition construirMansao : Room :=
  let rSotao := criarSala "Sótão" in
  let rPorao := criarSala "Porão" in
  let rQuarto := criarSala "Quarto" in
  let rVaranda := criarSala "Varanda" in
  let rBiblioteca := set_left (criarSala "Biblioteca") rSotao in
  let rEscritorio := set_right (criarSala "Escritório") rPorao in
  let rSala := set_right (set_left (criarSala "Salão") rBiblioteca) rEscritorio in
  let rCozinha := set_right (set_left (criarSala "Cozinha") rQuarto) rVaranda in
  set_right (set_left (criarSala "Entrada") rSala) rCozinha.

(** The chain of [strcmp] tests at the head of the loop of [explorarSalas]
    (the source's comment calls it [getClueForRoom]). *)
Definition getClueForRoom (name : string) : option string :=
  if streq name "Entrada" then Some "Pegadas lamacentas"
  else if streq name "Salão" then Some "Vidro quebrado"
  else if streq name "Cozinha" then Some "Faca com impressões"
  else if streq name "Biblioteca" then Some "Livro deslocado"
  else if streq name "Escritório" then Some "Carta rasgada"
  else if streq name "Quarto" then Some "Frascos vazios"
  else if streq name "Varanda" then Some "Fibra vermelha"
  else if streq name "Sótão" then Some "Marcas de arraste"
  else if streq name "Porão" then Some "Pegada pequena"
  else None.

(** ** The ledger of clues *)

(** [inserirPista]. *)
Fixpoint inserirPista (root : ClueNode) (clue : option string) : ClueNode :=
  match clue with
  | None => root
  | Some c =>
      match root with
      | ClueNULL => ClueTree c ClueNULL ClueNULL
      | ClueTree k l r =>
          match strcmp c k with
          | Eq => root
          | Lt => ClueTree k (inserirPista l clue) r
          | Gt => ClueTree k l (inserirPista r clue)
          end
      end
  end.

(** [adicionarPista]. *)
Definition adicionarPista (root : ClueNode) (clue : option string) : W ClueNode :=
  match clue with
  | None => mret root
  | Some c =>
      printf (MsgPistaEncontrada c);;
      let root := inserirPista root clue in
      printf MsgPistaAdicionada;;
      mret root
  end.

(** [listarPistas]. *)
Fixpoint listarPistas (root : ClueNode) : W unit :=
  match root with
  | ClueNULL => mret tt
  | ClueTree k l r =>
      listarPistas l;;
      printf (MsgItem k);;
      listarPistas r
  end.

(** ** The index of suspects *)

(** One round of the loop of [hash_func]:
    [h = ((h << 5) + h) + (unsigned char)c], in [unsigned long]. *)
Definition hash_step (h : Z) (c : ascii) : Z :=
  (((Z.shiftl h 5 mod 2 ^ ULONG_BITS) + h) mod 2 ^ ULONG_BITS + uchar c)
    mod 2 ^ ULONG_BITS.

Fixpoint hash_loop (h : Z) (s : string) : Z :=
  match s with
  | EmptyString => h
  | String c t => hash_loop (hash_step h c) t
  end.

(** [hash_func]. *)
Definition hash_func (s : string) : Z :=
  (hash_loop 5381 s mod HASH_SIZE) mod 2 ^ UINT_BITS.

(** [table[idx]]. *)
Definition bucket (table : Table) (idx : Z) : list HashEntry :=
  default [] (table !! Z.to_nat idx).

(** The loop of [inserirNaHash] over a chain: the chain with the suspect
    of the first entry for [pista] replaced, or [None] when the loop runs
    off the end of the chain. *)
Fixpoint substituir (cur : list HashEntry) (pista suspeito : string)
  : option (list HashEntry) :=
  match cur with
  | [] => None
  | e :: next =>
      if streq (key e) pista
      then Some (mkEntry (key e) suspeito :: next)
      else match substituir next pista suspeito with
           | Some next' => Some (e :: next')
           | None => None
           end
  end.

(** [inserirNaHash]. *)
Definition inserirNaHash (table : Table) (pista suspeito : option string) : Table :=
  match pista, suspeito with
  | Some p, Some s =>
      let idx := hash_func p in
      let cur := bucket table idx in
      match substituir cur p s with
      | Some chain => <[Z.to_nat idx := chain]> table
      | None => <[Z.to_nat idx := mkEntry p s :: cur]> table
      end
  | _, _ => table
  end.

(** The loop of [encontrarSuspeito] over a chain. *)
Fixpoint procurar (cur : list HashEntry) (pista : string) : option string :=
  match cur with
  | [] => None
  | e :: next => if streq (key e) pista then Some (suspect e) else procurar next pista
  end.

(** [encontrarSuspeito]. *)
Definition encontrarSuspeito (table : Table) (pista : option string) : option string :=
  match pista with
  | None => None
  | Some p => procurar (bucket table (hash_func p)) p
  end.

(** The array of [main] once the first loop of [popularTabelaHash] has
    run: [HASH_SIZE] null chains. *)
Definition tabela_vazia : Table := replicate (Z.to_nat HASH_SIZE) [].

(** [popularTabelaHash]. *)
Definition popularTabelaHash : Table :=
  let table := tabela_vazia in
  let table := inserirNaHash table (Some "Pegadas lamacentas") (Some "Sr. Verde") in
  let table := inserirNaHash table (Some "Vidro quebrado") (Some "Sra. Rosa") in
  let table := inserirNaHash table (Some "Faca com impressões") (Some "Sr. Preto") in
  let table := inserirNaHash table (Some "Livro deslocado") (Some "Sra. Rosa") in
  let table := inserirNaHash table (Some "Carta rasgada") (Some "Sr. Preto") in
  let table := inserirNaHash table (Some "Frascos vazios") (Some "Dr. Azul") in
  let table := inserirNaHash table (Some "Fibra vermelha") (Some "Sra. Rosa") in
  let table := inserirNaHash table (Some "Marcas de arraste") (Some "Sr. Verde") in
  let table := inserirNaHash table (Some "Pegada pequena") (Some "Sra. Rosa") in
  table.

(** ** The session *)

(** The memory that [main] owns and hands to the two phases, with what is
    left of the standard input. *)
Record Sessao : Type := mkSessao {
  mansao : Room;
  table : Table;
  collected : ClueNode;
  stdin : list string
}.

(** ** Exploration *)

(** How one round of the loop of [explorarSalas] ends: the loop goes on
    with a cursor, or it is left through [break]. *)
Inductive Controle : Type :=
| Continua (atual : Room)
| Sai.

(** The first half of a round: the room is announced and its clue, if it
    has one, is collected; then the prompt is printed. *)
Definition visitar (name : string) (collected : ClueNode) : W ClueNode :=
  printf (MsgSala name);;
  collected ← match getClueForRoom name with
              | Some clue => adicionarPista collected (Some clue)
              | None => printf MsgSemPistas;; mret collected
              end;
  printf MsgEscolha;;
  printf MsgPrompt;;
  mret collected.

(** The second half of a round, once [fgets] has filled [input] and
    [trim_newline] has run: the cursor is the room [name] with the exits
    [l] and [r]. *)
Definition navegar (name : string) (l r : Room) (input : string) : W Controle :=
  let atual := RoomNode name l r in
  match input with
  | EmptyString => mret (Continua atual)
  | String c _ =>
      if (Ascii.eqb c "e" || Ascii.eqb c "E")%bool then
        match l with
        | RoomNULL => printf MsgSemEsquerda;; mret (Continua atual)
        | RoomNode _ _ _ => mret (Continua l)
        end
      else if (Ascii.eqb c "d" || Ascii.eqb c "D")%bool then
        match r with
        | RoomNULL => printf MsgSemDireita;; mret (Continua atual)
        | RoomNode _ _ _ => mret (Continua r)
        end
      else if (Ascii.eqb c "s" || Ascii.eqb c "S")%bool then
        printf MsgSaindo;; mret Sai
      else
        printf MsgOpcaoInvalida;; mret (Continua atual)
  end.

(** The loop [while (atual)] of [explorarSalas]: every round takes one
    buffer from the standard input. The result is the ledger and the
    input that was not read. *)
Fixpoint explorar_loop (atual : Room) (collected : ClueNode) (stdin : list string)
  {struct stdin} : W (ClueNode * list string) :=
  match atual with
  | RoomNULL => mret (collected, stdin)
  | RoomNode name l r =>
      collected ← visitar name collected;
      match stdin with
      | [] => mret (collected, [])
      | buf :: rest =>
          ctl ← navegar name l r (trim_newline buf);
          match ctl with
          | Continua atual' => explorar_loop atual' collected rest
          | Sai => mret (collected, rest)
          end
      end
  end.

(** [explorarSalas(mansao, &collected, table)]: the session after the
    call. The table is passed to the function and never used by it. *)
Definition explorarSalas (st : Sessao) : W Sessao :=
  printf MsgInicioExploracao;;
  res ← explorar_loop (mansao st) (collected st) (stdin st);
  printf MsgFimExploracao;;
  mret (mkSessao (mansao st) (table st) (fst res) (snd res)).

(** ** Judgment *)

(** The call [encontrarSuspeito(table, root->clue)], recorded in the trace. *)
Definition consultar (table : Table) (pista : string) : W (option string) :=
  (encontrarSuspeito table (Some pista), [Consulta pista]).

(** [count_clues_for_suspect]. *)
Fixpoint count_clues_for_suspect (root : ClueNode) (table : Table) (suspect : string)
  : W Z :=
  match root with
  | ClueNULL => mret 0
  | ClueTree k l r =>
      let cnt := 0 in
      n ← count_clues_for_suspect l table suspect;
      let cnt := cnt + n in
      s ← consultar table k;
      let cnt := match s with
                 | Some s => if streq s suspect then cnt + 1 else cnt
                 | None => cnt
                 end in
      n ← count_clues_for_suspect r table suspect;
      let cnt := cnt + n in
      mret cnt
  end.

(** [verificarSuspeitoFinal(collected, table)]. The function receives
    pointers to the ledger and to the table; the result is the session as
    the call leaves it, so that what the call does to both can be stated. *)
Definition verificarSuspeitoFinal (st : Sessao) : W Sessao :=
  match collected st with
  | ClueNULL => printf MsgNenhumaPista;; mret st
  | ClueTree _ _ _ =>
      printf MsgPistasColetadas;;
      listarPistas (collected st);;
      printf MsgDigiteSuspeito;;
      match stdin st with
      | [] => mret st
      | buf :: rest =>
          let st := mkSessao (mansao st) (table st) (collected st) rest in
          let accused := trim_newline buf in
          if strlen accused =? 0 then
            printf MsgNenhumSuspeito;; mret st
          else
            count ← count_clues_for_suspect (collected st) (table st) accused;
            printf (MsgAcusou accused);;
            printf (MsgContagem accused count);;
            (if count >=? 2 then printf MsgAcusacaoValida else printf MsgAcusacaoFraca);;
            mret st
      end
  end.

(** [main], up to the release of the three structures: the exit status. *)
Definition main (stdin : list string) : W Z :=
  let mansao := construirMansao in
  let table := popularTabelaHash in
  let collected := ClueNULL in
  st ← explorarSalas (mkSessao mansao table collected stdin);
  st ← verificarSuspeitoFinal st;
  printf MsgObrigado;;
  mret 0.

(** ** Vocabulary of the specification *)

(** The clues of a ledger, in the order in which [listarPistas] and
    [count_clues_for_suspect] reach them. *)
Fixpoint inorder (root : ClueNode) : list string :=
  match root with
  | ClueNULL => []
  | ClueTree k l r => inorder l ++ k :: inorder r
  end.

(** The ordering invariant of a binary search tree, under [strcmp]. *)
Fixpoint bst (root : ClueNode) : Prop :=
  match root with
  | ClueNULL => True
  | ClueTree k l r =>
      Forall (λ x, strcmp x k = Lt) (inorder l) ∧
      Forall (λ x, strcmp x k = Gt) (inorder r) ∧
      bst l ∧ bst r
  end.

#[global] Instance bst_dec (root : ClueNode) : Decision (bst root).
Proof. induction root as [|k l IHl r IHr]; simpl; apply _. Defined.

(** [novo_no root c root']: [root'] is [root] with one null pointer
    replaced by a fresh node that holds [c] and has no children. *)
Inductive novo_no : ClueNode → string → ClueNode → Prop :=
| novo_aqui c : novo_no ClueNULL c (ClueTree c ClueNULL ClueNULL)
| novo_esq k l r c l' : novo_no l c l' → novo_no (ClueTree k l r) c (ClueTree k l' r)
| novo_dir k l r c r' : novo_no r c r' → novo_no (ClueTree k l r) c (ClueTree k l r').

(** The texts compared by [<=] and by [<] under [strcmp]. *)
Definition str_le (a b : string) : Prop := strcmp a b ≠ Gt.
Definition str_lt (a b : string) : Prop := strcmp a b = Lt.

(** The ledger after a sequence of insertions. *)
Definition inserirPistas (clues : list string) (root : ClueNode) : ClueNode :=
  foldl (λ t c, inserirPista t (Some c)) root clues.

(** The index after a sequence of associations (clue, suspect). *)
Definition inserirAssociacoes (ops : list (string * string)) (table : Table) : Table :=
  foldl (λ t op, inserirNaHash t (Some (fst op)) (Some (snd op))) table ops.

(** The suspect most recently associated with a clue by a sequence of
    associations, if the clue occurs in it at all. *)
Fixpoint ultima_associacao (ops : list (string * string)) (pista : string)
  : option string :=
  match ops with
  | [] => None
  | (k, s) :: ops' =>
      match ultima_associacao ops' pista with
      | Some s' => Some s'
      | None => if String.eqb k pista then Some s else None
      end
  end.

(** The entries of the whole table that carry a given clue. *)
Definition entradas_de (table : Table) (pista : string) : list HashEntry :=
  filter (λ e, key e = pista) (concat table).

(** What the index must satisfy for its operations to make sense: it has
    [HASH_SIZE] buckets, every entry sits in the bucket of its hash, and no
    chain holds a key twice. *)
Definition tabela_ok (table : Table) : Prop :=
  length table = Z.to_nat HASH_SIZE ∧
  ∀ (i : nat) (chain : list HashEntry), table !! i = Some chain →
    Forall (λ e, Z.to_nat (hash_func (key e)) = i) chain ∧ NoDup (key <$> chain).

(** The clues of a list that the index maps to a given suspect. *)
Definition apontam_para (table : Table) (suspect : string) (clues : list string) : list string :=
  filter (λ c, encontrarSuspeito table (Some c) = Some suspect) clues.

(** The buffers that make the loop stop. *)
Definition comando_sair (buf : string) : Prop :=
  ∃ c tl, trim_newline buf = String c tl ∧ (c = "s"%char ∨ c = "S"%char).

(** What the judgment prints before it reads the name of the accused. *)
Definition preambulo (root : ClueNode) : list Event :=
  Printf MsgPistasColetadas :: ((λ c, Printf (MsgItem c)) <$> inorder root) ++
  [Printf MsgDigiteSuspeito].

(** The three outcomes of the judgment, and the one that the trace of
    [verificarSuspeitoFinal] shows: when the judgment renders an outcome,
    it is the last line that it prints. *)
Inductive Veredito : Type := SUPPORTED | WEAK | NO_EVIDENCE.

Definition veredito_de (tr : list Event) : option Veredito :=
  match last tr with
  | Some (Printf MsgAcusacaoValida) => Some SUPPORTED
  | Some (Printf MsgAcusacaoFraca) => Some WEAK
  | Some (Printf MsgNenhumaPista) => Some NO_EVIDENCE
  | _ => None
  end.

(** The buffer that [fgets] fills when the player types [s] and a line feed. *)
Definition linha (s : string) : string := s +:+ String newline "".

(** The six characters that the exploration prompt understands. *)
Definition comandos : list ascii :=
  ["e"; "E"; "d"; "D"; "s"; "S"]%char.

(** ** The remaining helpers of the source *)

(** [tolower] of the C library, on the value of an [unsigned char]. The
    program never calls [setlocale], so the locale is "C": the letters
    'A' to 'Z' are moved to 'a' to 'z', every other value is kept. *)
Definition tolower (c : Z) : Z :=
  if (65 <=? c) && (c <=? 90) then c + 32 else c.

(** The conversion [(char)] of a value in the range of [unsigned char]. *)
Definition to_char (c : Z) : ascii := ascii_of_N (Z.to_N c).

(** [str_tolower_inplace]: the string that the buffer holds afterwards. *)
Fixpoint str_tolower_inplace (s : string) : string :=
  match s with
  | EmptyString => EmptyString
  | String c t => String (to_char (tolower (uchar c))) (str_tolower_inplace t)
  end.

(** Vocabulary for the properties of these helpers and of the engine. *)

(** The hash of Bernstein without any wrap-around:
    [h * 33 + c] for every byte, in unbounded integers. *)
Fixpoint djb2 (h : Z) (s : string) : Z :=
  match s with
  | EmptyString => h
  | String c t => djb2 (33 * h + uchar c) t
  end.

(** A byte is an upper-case letter of ASCII. *)
Definition maiuscula (c : ascii) : Prop := 65 <= uchar c <= 90.

(** The names of the rooms of a mansion. *)
Fixpoint salas (r : Room) : list string :=
  match r with
  | RoomNULL => []
  | RoomNode name l r => name :: salas l ++ salas r
  end.

(** The clues that the rooms of a mansion hold. *)
Definition pistas_da_mansao (r : Room) : list string :=
  omap getClueForRoom (salas r).

(** The events that a round of exploration can leave in the trace. *)
Definition evento_exploracao (e : Event) : Prop :=
  match e with
  | Printf (MsgSala _) | Printf (MsgPistaEncontrada _) | Printf MsgPistaAdicionada
  | Printf MsgSemPistas | Printf MsgEscolha | Printf MsgPrompt
  | Printf MsgSemEsquerda | Printf MsgSemDireita | Printf MsgSaindo
  | Printf MsgOpcaoInvalida => True
  | _ => False
  end.

(** The entries of the whole table that name a given suspect. *)
Definition entradas_do_suspeito (table : Table) (nome : string) : list HashEntry :=
  filter (λ e, suspect e = nome) (concat table).

(** The association of [getClueForRoom], as a list: room name and clue. *)
Definition pistas_por_sala : list (string * string) :=
  [("Entrada", "Pegadas lamacentas"); ("Salão", "Vidro quebrado");
   ("Cozinha", "Faca com impressões"); ("Biblioteca", "Livro deslocado");
   ("Escritório", "Carta rasgada"); ("Quarto", "Frascos vazios");
   ("Varanda", "Fibra vermelha"); ("Sótão", "Marcas de arraste");
   ("Porão", "Pegada pequena")].

(** The session that [main] hands to [explorarSalas]. *)
Definition sessao_inicial (ins : list string) : Sessao :=
  mkSessao construirMansao popularTabelaHash ClueNULL ins.

(** The events that the judgment can leave in the trace. *)
Definition evento_julgamento (e : Event) : Prop :=
  match e with
  | Printf MsgNenhumaPista | Printf MsgPistasColetadas | Printf (MsgItem _)
  | Printf MsgDigiteSuspeito | Printf MsgNenhumSuspeito | Printf (MsgAcusou _)
  | Printf (MsgContagem _ _) | Printf MsgAcusacaoValida | Printf MsgAcusacaoFraca
  | Consulta _ => True
  | _ => False
  end.

(** ** The judgment on the memory of the program

    The functions of the judgment once more, this time on the linked
    structures as the C program holds them: nodes and entries are cells of
    a memory, reached through addresses, and every function takes the
    state of the world and returns the state it leaves. A function that
    wrote to a cell would return another memory. Reading through an
    address that holds no cell is undefined in C and yields no result
    here; the recursion over the pointers is bounded by a fuel. *)

Module Ptr.

(** An address; 0 is [NULL]. *)
Definition ptr : Type := nat.
Definition NULL : ptr := 0%nat.

(** [struct ClueNode]. *)
Record ClueCell : Type := mkClueCell {
  node_clue : string;
  node_left : ptr;
  node_right : ptr
}.

(** [struct HashEntry]. *)
Record EntryCell : Type := mkEntryCell {
  entry_key : string;
  entry_suspect : string;
  entry_next : ptr
}.

(** The memory: the nodes of the ledger, the entries of the index and the
    array [table] of [main], which holds the head of every chain. *)
Record Memoria : Type := mkMemoria {
  clue_nodes : gmap nat ClueCell;
  hash_entries : gmap nat EntryCell;
  table_slots : list ptr
}.

(** The world: the memory, the unread standard input and the trace. *)
Record Mundo : Type := mkMundo {
  memoria : Memoria;
  entrada : list string;
  saida : list Event
}.

(** A computation on the world that may have no result. *)
Definition M (A : Type) : Type := Mundo → option (A * Mundo).

Definition ret {A : Type} (a : A) : M A := λ w, Some (a, w).

Definition bind {A B : Type} (m : M A) (f : A → M B) : M B :=
  λ w, match m w with
       | Some (a, w') => f a w'
       | None => None
       end.

Notation "'let*' x := m 'in' k" := (bind m (λ x, k))
  (at level 10, x name, m at level 100, k at level 200, only parsing).

(** The reads [p->clue], [p->left], [p->right] of a node at once. *)
Definition load_node (p : ptr) : M ClueCell :=
  λ w, match clue_nodes (memoria w) !! p with
       | Some cell => Some (cell, w)
       | None => None
       end.

(** The reads [p->key], [p->suspect], [p->next] of an entry at once. *)
Definition load_entry (p : ptr) : M EntryCell :=
  λ w, match hash_entries (memoria w) !! p with
       | Some cell => Some (cell, w)
       | None => None
       end.

(** The read [table[idx]]. *)
Definition load_slot (idx : Z) : M ptr :=
  λ w, match table_slots (memoria w) !! Z.to_nat idx with
       | Some p => Some (p, w)
       | None => None
       end.

Definition emit (e : Event) : M unit :=
  λ w, Some (tt, mkMundo (memoria w) (entrada w) (saida w ++ [e])).

Definition printf (m : Msg) : M unit := emit (Printf m).

(** [fgets]: the next buffer, or a null result at end of input. *)
Definition fgets : M (option string) :=
  λ w, match entrada w with
       | [] => Some (None, w)
       | buf :: rest => Some (Some buf, mkMundo (memoria w) rest (saida w))
       end.

(** The loop of [encontrarSuspeito] from the entry at [cur]. *)
Fixpoint procurar (fuel : nat) (cur : ptr) (pista : string) : M (option string) :=
  match fuel with
  | O => λ _, None
  | S fuel =>
      if Nat.eqb cur NULL then ret None
      else
        let* e := load_entry cur in
        if streq (entry_key e) pista then ret (Some (entry_suspect e))
        else procurar fuel (entry_next e) pista
  end.

(** [encontrarSuspeito]. *)
Definition encontrarSuspeito (fuel : nat) (pista : option string) : M (option string) :=
  match pista with
  | None => ret None
  | Some p =>
      let idx := hash_func p in
      let* cur := load_slot idx in
      procurar fuel cur p
  end.

(** [count_clues_for_suspect]. *)
Fixpoint count_clues_for_suspect (fuel : nat) (root : ptr) (suspect : string) : M Z :=
  match fuel with
  | O => λ _, None
  | S fuel =>
      if Nat.eqb root NULL then ret 0
      else
        let* node := load_node root in
        let cnt := 0 in
        let* n := count_clues_for_suspect fuel (node_left node) suspect in
        let cnt := cnt + n in
        let* _ := emit (Consulta (node_clue node)) in
        let* s := encontrarSuspeito fuel (Some (node_clue node)) in
        let cnt := match s with
                   | Some s => if streq s suspect then cnt + 1 else cnt
                   | None => cnt
                   end in
        let* n := count_clues_for_suspect fuel (node_right node) suspect in
        let cnt := cnt + n in
        ret cnt
  end.

(** [listarPistas]. *)
Fixpoint listarPistas (fuel : nat) (root : ptr) : M unit :=
  match fuel with
  | O => λ _, None
  | S fuel =>
      if Nat.eqb root NULL then ret tt
      else
        let* node := load_node root in
        let* _ := listarPistas fuel (node_left node) in
        let* _ := printf (MsgItem (node_clue node)) in
        listarPistas fuel (node_right node)
  end.

(** [verificarSuspeitoFinal]. *)
Definition verificarSuspeitoFinal (fuel : nat) (collected : ptr) : M unit :=
  if Nat.eqb collected NULL then printf MsgNenhumaPista
  else
    let* _ := printf MsgPistasColetadas in
    let* _ := listarPistas fuel collected in
    let* _ := printf MsgDigiteSuspeito in
    let* line := fgets in
    match line with
    | None => ret tt
    | Some buf =>
        let accused := trim_newline buf in
        if strlen accused =? 0 then printf MsgNenhumSuspeito
        else
          let* count := count_clues_for_suspect fuel collected accused in
          let* _ := printf (MsgAcusou accused) in
          let* _ := printf (MsgContagem accused count) in
          if count >=? 2 then printf MsgAcusacaoValida else printf MsgAcusacaoFraca
    end.

End Ptr.

(** The memory holds a ledger: the node at an address, with the subtrees
    at the addresses it holds, is a given tree. *)
Inductive rep_tree (nodes : gmap nat Ptr.ClueCell) : Ptr.ptr → ClueNode → Prop :=
| rep_tree_null : rep_tree nodes Ptr.NULL ClueNULL
| rep_tree_node p k pl pr tl tr :
    p ≠ Ptr.NULL →
    nodes !! p = Some (Ptr.mkClueCell k pl pr) →
    rep_tree nodes pl tl →
    rep_tree nodes pr tr →
    rep_tree nodes p (ClueTree k tl tr).

(** The memory holds a chain: the entries from an address on are a given
    list of entries. *)
Inductive rep_chain (entries : gmap nat Ptr.EntryCell) : Ptr.ptr → list HashEntry → Prop :=
| rep_chain_null : rep_chain entries Ptr.NULL []
| rep_chain_entry p k s pn next :
    p ≠ Ptr.NULL →
    entries !! p = Some (Ptr.mkEntryCell k s pn) →
    rep_chain entries pn next →
    rep_chain entries p (mkEntry k s :: next).

(** The memory holds an index: the array has [HASH_SIZE] slots and the
    chain of every slot is the bucket of a given table. *)
Definition rep_table (mem : Ptr.Memoria) (t : Table) : Prop :=
  length t = Z.to_nat HASH_SIZE ∧
  Forall2 (rep_chain (Ptr.hash_entries mem)) (Ptr.table_slots mem) t.

(** The height of a ledger. *)
Fixpoint altura (root : ClueNode) : nat :=
  match root with
  | ClueNULL => 0
  | ClueTree _ l r => S (Nat.max (altura l) (altura r))
  end.

(** A fuel that is enough for the judgment on a ledger and a table. *)
Definition combustivel (root : ClueNode) (t : Table) : nat :=
  S (S (altura root + length (concat t))).

(** A world after more events were printed. *)
Definition acrescenta (w : Ptr.Mundo) (tr : list Event) : Ptr.Mundo :=
  Ptr.mkMundo (Ptr.memoria w) (Ptr.entrada w) (Ptr.saida w ++ tr).

(** * C strings: [strcmp] is a strict total order *)

Lemma uchar_inj c1 c2 : uchar c1 = uchar c2 → c1 = c2.
Proof.
  unfold uchar. intros H. apply N2Z.inj in H.
  rewrite <- (ascii_N_embedding c1), <- (ascii_N_embedding c2). by rewrite H.
Qed.

Lemma uchar_range c : 0 <= uchar c < 256.
Proof.
  unfold uchar. pose proof (N_ascii_bounded c) as Hb. lia.
Qed.

Lemma strcmp_refl s : strcmp s s = Eq.
Proof. induction s as [|c t IH]; simpl; [done|]. by rewrite Z.compare_refl. Qed.

Lemma strcmp_eq s1 s2 : strcmp s1 s2 = Eq → s1 = s2.
Proof.
  revert s2. induction s1 as [|c1 t1 IH]; intros [|c2 t2]; simpl; try done.
  destruct (uchar c1 ?= uchar c2) eqn:E; try done.
  intros H. apply Z.compare_eq in E. apply uchar_inj in E. f_equal; auto.
Qed.

Lemma strcmp_eq_iff s1 s2 : strcmp s1 s2 = Eq ↔ s1 = s2.
Proof. split; [apply strcmp_eq | intros ->; apply strcmp_refl]. Qed.

Lemma strcmp_antisym s1 s2 : strcmp s2 s1 = CompOpp (strcmp s1 s2).
Proof.
  revert s2. induction s1 as [|c1 t1 IH]; intros [|c2 t2]; simpl; try done.
  rewrite (Z.compare_antisym (uchar c1) (uchar c2)).
  destruct (uchar c1 ?= uchar c2); simpl; auto.
Qed.

Lemma strcmp_gt_lt s1 s2 : strcmp s1 s2 = Gt ↔ strcmp s2 s1 = Lt.
Proof. rewrite (strcmp_antisym s1 s2). destruct (strcmp s1 s2); simpl; split; done. Qed.

Lemma strcmp_lt_trans s1 s2 s3 :
  strcmp s1 s2 = Lt → strcmp s2 s3 = Lt → strcmp s1 s3 = Lt.
Proof.
  revert s2 s3.
  induction s1 as [|c1 t1 IH]; intros [|c2 t2] [|c3 t3]; simpl; try done.
  destruct (uchar c1 ?= uchar c2) eqn:E12; try done;
    destruct (uchar c2 ?= uchar c3) eqn:E23; try done; intros H12 H23.
  - apply Z.compare_eq in E12, E23. rewrite E12, E23, Z.compare_refl. eauto.
  - apply Z.compare_eq in E12. by rewrite E12, E23.
  - apply Z.compare_eq in E23. by rewrite <- E23, E12.
  - rewrite Z.compare_lt_iff in E12, E23.
    assert (uchar c1 < uchar c3) as Hlt by lia.
    apply Z.compare_lt_iff in Hlt. by rewrite Hlt.
Qed.

Lemma strcmp_lt_irrefl s : strcmp s s ≠ Lt.
Proof. by rewrite strcmp_refl. Qed.

Lemma strcmp_lt_ne s1 s2 : strcmp s1 s2 = Lt → s1 ≠ s2.
Proof. intros H ->. by rewrite strcmp_refl in H. Qed.

Lemma strcmp_gt_ne s1 s2 : strcmp s1 s2 = Gt → s1 ≠ s2.
Proof. intros H ->. by rewrite strcmp_refl in H. Qed.


Lemma streq_true s1 s2 : streq s1 s2 = true ↔ s1 = s2.
Proof.
  unfold streq. rewrite <- strcmp_eq_iff. destruct (strcmp s1 s2); split; done.
Qed.

Lemma streq_false s1 s2 : streq s1 s2 = false ↔ s1 ≠ s2.
Proof.
  rewrite <- streq_true. destruct (streq s1 s2); split; done.
Qed.

Lemma streq_refl s : streq s s = true.
Proof. by apply streq_true. Qed.


(** * The trace monad *)

Lemma W_bind_eq {A B} (f : A → W B) (m : W A) :
  m ≫= f = ((f m.1).1, m.2 ++ (f m.1).2).
Proof. unfold mbind, W_bind. by destruct (f m.1). Qed.

Lemma W_bind_fst {A B} (f : A → W B) (m : W A) : (m ≫= f).1 = (f m.1).1.
Proof. by rewrite W_bind_eq. Qed.

Lemma W_bind_snd {A B} (f : A → W B) (m : W A) : (m ≫= f).2 = m.2 ++ (f m.1).2.
Proof. by rewrite W_bind_eq. Qed.

Lemma W_pair {A} (m : W A) : m = (m.1, m.2).
Proof. by destruct m. Qed.

(** * The ledger of clues *)

Section Ledger.

Implicit Types (root l r : ClueNode) (c k x : string).

Lemma inserirPista_NULL_clue root : inserirPista root None = root.
Proof. by destruct root. Qed.

Lemma elem_of_inorder_inserir root c x :
  x ∈ inorder (inserirPista root (Some c)) ↔ x = c ∨ x ∈ inorder root.
Proof.
  induction root as [|k l IHl r IHr]; simpl.
  - rewrite elem_of_cons. tauto.
  - destruct (strcmp c k) eqn:E; simpl.
    + apply strcmp_eq in E as ->.
      rewrite elem_of_app, elem_of_cons. tauto.
    + rewrite !elem_of_app, IHl, !elem_of_cons. tauto.
    + rewrite !elem_of_app, !elem_of_cons, IHr. tauto.
Qed.

Lemma Forall_inorder_inserir (P : string → Prop) root c :
  P c → Forall P (inorder root) → Forall P (inorder (inserirPista root (Some c))).
Proof.
  rewrite !Forall_forall. intros Hc H x Hx.
  apply elem_of_inorder_inserir in Hx as [->|Hx]; auto.
Qed.

Lemma bst_inserir root c : bst root → bst (inserirPista root (Some c)).
Proof.
  induction root as [|k l IHl r IHr]; simpl.
  - intros _. repeat split; constructor.
  - intros (Hl & Hr & Bl & Br). destruct (strcmp c k) eqn:E; simpl.
    + done.
    + repeat split; auto. by apply Forall_inorder_inserir.
    + repeat split; auto. by apply Forall_inorder_inserir.
Qed.

Lemma bst_inserirPistas clues root : bst root → bst (inserirPistas clues root).
Proof.
  unfold inserirPistas. revert root.
  induction clues as [|c clues IH]; intros root H; simpl; [done|].
  apply IH. by apply bst_inserir.
Qed.

Lemma bst_sorted root : bst root → StronglySorted str_lt (inorder root).
Proof.
  induction root as [|k l IHl r IHr]; simpl.
  - intros _. constructor.
  - intros (Hl & Hr & Bl & Br).
    rewrite Forall_forall in Hl, Hr.
    apply StronglySorted_app_2; [| by auto |].
    + intros x1 x2 H1 H2. unfold str_lt.
      apply elem_of_cons in H2 as [->|H2]; [by auto|].
      apply strcmp_lt_trans with k; [by auto|].
      apply strcmp_gt_lt. auto.
    + apply StronglySorted_cons. split; [|by auto].
      apply Forall_forall. intros x Hx. apply strcmp_gt_lt. auto.
Qed.

Lemma sorted_lt_NoDup (l : list string) : StronglySorted str_lt l → NoDup l.
Proof.
  induction 1 as [|x l Hs IH Hx]; constructor; [|done].
  intros Hin. rewrite Forall_forall in Hx.
  specialize (Hx x Hin). unfold str_lt in Hx. by rewrite strcmp_refl in Hx.
Qed.

Lemma sorted_lt_le (l : list string) : StronglySorted str_lt l → Sorted str_le l.
Proof.
  intros H. apply StronglySorted_Sorted.
  induction H as [|x l Hs IH Hx]; constructor; [done|].
  eapply Forall_impl; [exact Hx|].
  intros y Hy. unfold str_lt in Hy. unfold str_le. by rewrite Hy.
Qed.

Lemma inserirPista_presente root c :
  bst root → c ∈ inorder root → inserirPista root (Some c) = root.
Proof.
  induction root as [|k l IHl r IHr]; simpl.
  - intros _ H. by apply elem_of_nil in H.
  - intros (Hl & Hr & Bl & Br) Hin.
    rewrite Forall_forall in Hl, Hr.
    destruct (strcmp c k) eqn:E; [done| |].
    + f_equal. apply IHl; [done|].
      apply elem_of_app in Hin as [H|H]; [done|].
      apply elem_of_cons in H as [->|H].
      * by rewrite strcmp_refl in E.
      * apply Hr in H. congruence.
    + f_equal. apply IHr; [done|].
      apply elem_of_app in Hin as [H|H].
      * apply Hl in H. congruence.
      * apply elem_of_cons in H as [->|H]; [|done].
        by rewrite strcmp_refl in E.
Qed.

Lemma inserirPista_idem root c :
  inserirPista (inserirPista root (Some c)) (Some c) = inserirPista root (Some c).
Proof.
  induction root as [|k l IHl r IHr]; simpl.
  - by rewrite strcmp_refl.
  - destruct (strcmp c k) eqn:E; simpl; rewrite E; [done| |]; by f_equal.
Qed.

Lemma inserirPista_ausente root c :
  bst root → c ∉ inorder root →
  novo_no root c (inserirPista root (Some c)) ∧
  ∃ xs ys, inorder root = xs ++ ys ∧
           inorder (inserirPista root (Some c)) = xs ++ c :: ys ∧
           Forall (λ x, str_lt x c) xs ∧ Forall (λ x, str_lt c x) ys.
Proof.
  induction root as [|k l IHl r IHr]; simpl.
  - intros _ _. split; [constructor|]. by exists [], [].
  - intros (Hl & Hr & Bl & Br) Hnin.
    rewrite elem_of_app, elem_of_cons in Hnin.
    destruct (strcmp c k) eqn:E; simpl.
    + apply strcmp_eq in E. tauto.
    + destruct IHl as (Hn & xs & ys & E1 & E2 & F1 & F2); [done|tauto|].
      split; [by constructor|].
      exists xs, (ys ++ k :: inorder r).
      rewrite E1, E2, <- !app_assoc. repeat split; [done|].
      apply Forall_app. split; [done|].
      apply Forall_cons. split; [done|].
      eapply Forall_impl; [exact Hr|]. intros x Hx. unfold str_lt.
      apply strcmp_lt_trans with k; [done|]. by apply strcmp_gt_lt.
    + destruct IHr as (Hn & xs & ys & E1 & E2 & F1 & F2); [done|tauto|].
      split; [by constructor|].
      exists (inorder l ++ k :: xs), ys.
      rewrite E1, E2, <- !app_assoc. repeat split; [|done].
      apply Forall_app. split.
      * eapply Forall_impl; [exact Hl|]. intros x Hx. unfold str_lt.
        apply strcmp_lt_trans with k; [done|]. by apply strcmp_gt_lt.
      * apply Forall_cons. split; [|done]. by apply strcmp_gt_lt.
Qed.

Lemma length_inorder_inserir root c :
  (length (inorder root) ≤ length (inorder (inserirPista root (Some c))) ≤
   S (length (inorder root)))%nat.
Proof.
  induction root as [|k l IHl r IHr]; simpl; [lia|].
  destruct (strcmp c k); simpl; rewrite !length_app; simpl; lia.
Qed.

Lemma filter_eq_absent (xs : list string) c :
  c ∉ xs → filter (λ x, x = c) xs = [].
Proof.
  induction xs as [|x xs IH]; [done|].
  rewrite not_elem_of_cons. intros [Hne Hnin].
  rewrite filter_cons, decide_False by congruence. auto.
Qed.

Lemma listarPistas_inorder root :
  listarPistas root = (tt, (λ c, Printf (MsgItem c)) <$> inorder root).
Proof.
  induction root as [|k l IHl r IHr]; simpl; [done|].
  rewrite !W_bind_eq, IHl, IHr. simpl. by rewrite fmap_app.
Qed.

End Ledger.

(** * The index of suspects *)

Section Index.

Implicit Types (t : Table) (cur chain : list HashEntry) (p q s : string).

Lemma hash_func_range p : 0 <= hash_func p < HASH_SIZE.
Proof.
  unfold hash_func, HASH_SIZE, UINT_BITS.
  pose proof (Z.mod_pos_bound (hash_loop 5381 p) 101 ltac:(lia)) as Hb.
  rewrite (Z.mod_small _ (2 ^ 32)); lia.
Qed.

Lemma hash_func_index t p :
  length t = Z.to_nat HASH_SIZE → (Z.to_nat (hash_func p) < length t)%nat.
Proof. intros ->. pose proof (hash_func_range p). lia. Qed.

Lemma length_tabela_vazia : length tabela_vazia = Z.to_nat HASH_SIZE.
Proof. unfold tabela_vazia. by rewrite length_replicate. Qed.

Lemma length_inserirNaHash t op os :
  length (inserirNaHash t op os) = length t.
Proof.
  destruct op as [p|], os as [s|]; simpl; try done.
  destruct (substituir _ _ _); by rewrite length_insert.
Qed.

Lemma length_inserirAssociacoes ops t :
  length (inserirAssociacoes ops t) = length t.
Proof.
  unfold inserirAssociacoes. revert t.
  induction ops as [|op ops IH]; intros t; [done|].
  cbn [foldl]. by rewrite IH, length_inserirNaHash.
Qed.

Lemma bucket_insert_eq t (i : nat) chain :
  (i < length t)%nat → bucket (<[i:=chain]> t) (Z.of_nat i) = chain.
Proof.
  intros Hi. unfold bucket. rewrite Nat2Z.id.
  by rewrite list_lookup_insert_eq.
Qed.

Lemma bucket_insert_ne t (i : nat) (j : Z) chain :
  i ≠ Z.to_nat j → bucket (<[i:=chain]> t) j = bucket t j.
Proof. intros Hi. unfold bucket. by rewrite list_lookup_insert_ne. Qed.

Lemma bucket_lookup t (i : Z) :
  (Z.to_nat i < length t)%nat → t !! Z.to_nat i = Some (bucket t i).
Proof.
  intros Hi. unfold bucket.
  destruct (lookup_lt_is_Some_2 t _ Hi) as [chain ->]. done.
Qed.

(** The two loops over a chain. *)

Lemma procurar_None cur p : procurar cur p = None ↔ p ∉ key <$> cur.
Proof.
  induction cur as [|e next IH]; simpl.
  - split; [|done]. intros _ H. by apply elem_of_nil in H.
  - rewrite not_elem_of_cons. destruct (streq (key e) p) eqn:E.
    + apply streq_true in E. split; [done|]. intros [H _]. by destruct H.
    + apply streq_false in E. rewrite IH. split; [|tauto].
      intros H. split; [congruence|done].
Qed.

Lemma substituir_None cur p s : substituir cur p s = None ↔ procurar cur p = None.
Proof.
  induction cur as [|e next IH]; simpl; [done|].
  destruct (streq (key e) p); [done|].
  destruct (substituir next p s); rewrite <- IH; split; done.
Qed.

Lemma substituir_keys cur p s chain :
  substituir cur p s = Some chain → key <$> chain = key <$> cur.
Proof.
  revert chain. induction cur as [|e next IH]; intros chain; simpl; [done|].
  destruct (streq (key e) p).
  - by intros [= <-].
  - destruct (substituir next p s) as [next'|]; [|done].
    intros [= <-]. simpl. f_equal. by apply IH.
Qed.

Lemma procurar_substituir cur p s chain q :
  substituir cur p s = Some chain →
  procurar chain q = if decide (q = p) then Some s else procurar cur q.
Proof.
  revert chain. induction cur as [|e next IH]; intros chain; simpl; [done|].
  destruct (streq (key e) p) eqn:E.
  - intros [= <-]. simpl. apply streq_true in E. rewrite E.
    destruct (decide (q = p)) as [->|Hne].
    + by rewrite streq_refl.
    + assert (streq p q = false) as -> by (apply streq_false; congruence). done.
  - destruct (substituir next p s) as [next'|]; [|done].
    intros [= <-]. simpl. apply streq_false in E.
    destruct (streq (key e) q) eqn:E'.
    + apply streq_true in E'. rewrite decide_False; [done|congruence].
    + by apply IH.
Qed.

Lemma procurar_novo cur p s q :
  procurar (mkEntry p s :: cur) q = if decide (q = p) then Some s else procurar cur q.
Proof.
  simpl. destruct (decide (q = p)) as [->|Hne].
  - by rewrite streq_refl.
  - assert (streq p q = false) as -> by (apply streq_false; congruence). done.
Qed.

Lemma filter_key_nil cur p : p ∉ key <$> cur → filter (λ e, key e = p) cur = [].
Proof.
  induction cur as [|e next IH]; simpl; [done|].
  rewrite not_elem_of_cons. intros [Hne Hnin].
  rewrite filter_cons, decide_False by congruence. auto.
Qed.

Lemma procurar_filter cur p s :
  NoDup (key <$> cur) → procurar cur p = Some s →
  filter (λ e, key e = p) cur = [mkEntry p s].
Proof.
  induction cur as [|e next IH]; simpl; [done|].
  intros Hnd Hp. apply NoDup_cons in Hnd as [Hnin Hnd].
  rewrite filter_cons. destruct (streq (key e) p) eqn:E.
  - apply streq_true in E. rewrite decide_True by done.
    injection Hp as <-. rewrite filter_key_nil by (by rewrite <- E).
    by destruct e as [k v]; simpl in *; subst k.
  - apply streq_false in E. rewrite decide_False by done. auto.
Qed.

(** Reading after writing. *)

Lemma encontrar_inserir t p s q :
  length t = Z.to_nat HASH_SIZE →
  encontrarSuspeito (inserirNaHash t (Some p) (Some s)) (Some q) =
  if decide (q = p) then Some s else encontrarSuspeito t (Some q).
Proof.
  intros Hlen. simpl.
  pose proof (hash_func_index t p Hlen) as Hi.
  pose proof (hash_func_range p) as Hp.
  pose proof (hash_func_range q) as Hq.
  assert (∀ chain,
    procurar chain q = (if decide (q = p) then Some s
                        else procurar (bucket t (hash_func p)) q) →
    procurar (bucket (<[Z.to_nat (hash_func p):=chain]> t) (hash_func q)) q =
    if decide (q = p) then Some s else procurar (bucket t (hash_func q)) q) as Hgo.
  { intros chain Hch.
    destruct (decide (hash_func q = hash_func p)) as [Heq|Hne].
    - rewrite Heq.
      rewrite <- (Z2Nat.id (hash_func p)) at 2 by lia.
      by rewrite bucket_insert_eq.
    - rewrite bucket_insert_ne by lia.
      rewrite decide_False; [done|]. by intros ->. }
  destruct (substituir (bucket t (hash_func p)) p s) as [chain|] eqn:E; apply Hgo.
  - by apply procurar_substituir.
  - apply procurar_novo.
Qed.

Lemma encontrar_tabela_vazia op : encontrarSuspeito tabela_vazia op = None.
Proof.
  destruct op as [p|]; simpl; [|done].
  unfold bucket, tabela_vazia.
  destruct (replicate _ _ !! _) as [chain|] eqn:E; [|done].
  by apply lookup_replicate in E as [-> _].
Qed.

Lemma encontrar_inserirAssociacoes ops t q :
  length t = Z.to_nat HASH_SIZE →
  encontrarSuspeito (inserirAssociacoes ops t) (Some q) =
  match ultima_associacao ops q with
  | Some s => Some s
  | None => encontrarSuspeito t (Some q)
  end.
Proof.
  unfold inserirAssociacoes. revert t.
  induction ops as [|[k s] ops IH]; intros t Hlen; [done|].
  cbn [foldl ultima_associacao fst snd].
  rewrite IH by (by rewrite length_inserirNaHash).
  destruct (ultima_associacao ops q); [done|].
  rewrite encontrar_inserir by done.
  destruct (String.eqb_spec k q) as [->|Hne].
  - by rewrite decide_True.
  - by rewrite decide_False by congruence.
Qed.

Lemma ultima_associacao_None ops q :
  ultima_associacao ops q = None ↔ q ∉ ops.*1.
Proof.
  induction ops as [|[k s] ops IH]; simpl.
  - split; [|done]. intros _ H. by apply elem_of_nil in H.
  - rewrite not_elem_of_cons, <- IH.
    destruct (ultima_associacao ops q).
    + split; [done|]. by intros [_ ?].
    + destruct (String.eqb_spec k q) as [->|Hne]; split; try done.
      by intros [? _].
Qed.

(** The invariant of the table. *)

Lemma tabela_ok_vazia : tabela_ok tabela_vazia.
Proof.
  split; [apply length_tabela_vazia|].
  intros i chain H. apply lookup_replicate in H as [-> _].
  split; constructor.
Qed.

Lemma tabela_ok_inserir t p s :
  tabela_ok t → tabela_ok (inserirNaHash t (Some p) (Some s)).
Proof.
  intros [Hlen Hok]. split; [by rewrite length_inserirNaHash|].
  pose proof (hash_func_index t p Hlen) as Hi.
  pose proof (bucket_lookup t (hash_func p) Hi) as Hb.
  destruct (Hok _ _ Hb) as [Hh Hnd].
  assert (∀ new, Forall (λ e, Z.to_nat (hash_func (key e)) = Z.to_nat (hash_func p)) new →
                 NoDup (key <$> new) →
          ∀ i chain, <[Z.to_nat (hash_func p):=new]> t !! i = Some chain →
            Forall (λ e, Z.to_nat (hash_func (key e)) = i) chain ∧ NoDup (key <$> chain))
    as Hgo.
  { intros new Hn1 Hn2 i chain Hl.
    rewrite list_lookup_insert in Hl. case_decide as Hd.
    - destruct Hd as [<- _]. by injection Hl as <-.
    - by apply Hok. }
  simpl. destruct (substituir (bucket t (hash_func p)) p s) as [new|] eqn:E.
  - apply Hgo.
    + apply (Forall_fmap key (λ k, Z.to_nat (hash_func k) = Z.to_nat (hash_func p))).
      rewrite (substituir_keys _ _ _ _ E). by apply Forall_fmap.
    + by rewrite (substituir_keys _ _ _ _ E).
  - apply Hgo.
    + by apply Forall_cons.
    + simpl. apply NoDup_cons. split; [|done].
      apply procurar_None. by apply substituir_None in E.
Qed.

Lemma tabela_ok_inserirAssociacoes ops t :
  tabela_ok t → tabela_ok (inserirAssociacoes ops t).
Proof.
  unfold inserirAssociacoes. revert t.
  induction ops as [|[k s] ops IH]; intros t Hok; [done|].
  simpl. apply IH. by apply tabela_ok_inserir.
Qed.

(** Every state that the program can reach is well formed. *)

Lemma tabela_ok_alcancavel ops : tabela_ok (inserirAssociacoes ops tabela_vazia).
Proof. apply tabela_ok_inserirAssociacoes, tabela_ok_vazia. Qed.

Lemma tabela_ok_popular : tabela_ok popularTabelaHash.
Proof.
  unfold popularTabelaHash. cbn zeta.
  repeat apply tabela_ok_inserir. apply tabela_ok_vazia.
Qed.

(** In a well-formed table the entries of a clue are all in its bucket. *)

Lemma filter_concat_nil (P : HashEntry → Prop) `{!∀ e, Decision (P e)} t :
  Forall (Forall (λ e, ¬ P e)) t → filter P (concat t) = [].
Proof.
  induction 1 as [|chain t Hc Ht IH]; simpl; [done|].
  rewrite filter_app, IH, app_nil_r.
  induction Hc as [|e chain He Hc IHc]; [done|].
  by rewrite filter_cons, decide_False.
Qed.

Lemma entradas_de_bucket t p :
  tabela_ok t →
  entradas_de t p = filter (λ e, key e = p) (bucket t (hash_func p)).
Proof.
  intros [Hlen Hok]. unfold entradas_de.
  pose proof (hash_func_index t p Hlen) as Hi.
  pose proof (bucket_lookup t (hash_func p) Hi) as Hb.
  rewrite <- (take_drop_middle _ _ _ Hb) at 1.
  rewrite concat_app, concat_cons, !filter_app.
  rewrite !filter_concat_nil.
  - by rewrite app_nil_r.
  - apply Forall_forall. intros chain Hin.
    apply list_elem_of_lookup in Hin as [j Hj].
    rewrite lookup_drop in Hj. destruct (Hok _ _ Hj) as [Hh _].
    eapply Forall_impl; [exact Hh|]. simpl. intros e He Hk. subst p. lia.
  - apply Forall_forall. intros chain Hin.
    apply list_elem_of_lookup in Hin as [j Hj].
    apply lookup_take_Some in Hj as [Hj Hlt].
    destruct (Hok _ _ Hj) as [Hh _].
    eapply Forall_impl; [exact Hh|]. simpl. intros e He Hk. subst p. lia.
Qed.

Lemma entradas_de_encontrar t p s :
  tabela_ok t → encontrarSuspeito t (Some p) = Some s →
  entradas_de t p = [mkEntry p s].
Proof.
  intros Hok Hp. rewrite entradas_de_bucket by done.
  apply procurar_filter; [|done].
  destruct Hok as [Hlen Hok].
  pose proof (hash_func_index t p Hlen) as Hi.
  by destruct (Hok _ _ (bucket_lookup t (hash_func p) Hi)).
Qed.

End Index.

(** * Exploration *)

Section Exploration.

Implicit Types (atual l r : Room) (collected : ClueNode) (buf name : string).

Lemma visitar_ledger name collected :
  (visitar name collected).1 =
  match getClueForRoom name with
  | Some c => inserirPista collected (Some c)
  | None => collected
  end.
Proof. unfold visitar. by destruct (getClueForRoom name). Qed.

Lemma visitar_trace name collected :
  ∃ tr, (visitar name collected).2 = Printf (MsgSala name) :: tr.
Proof. unfold visitar. destruct (getClueForRoom name); by eexists. Qed.

Lemma explorar_loop_NULL collected (ins : list string) :
  explorar_loop RoomNULL collected ins = ((collected, ins), []).
Proof. by destruct ins. Qed.

Lemma explorar_loop_eof name l r collected :
  explorar_loop (RoomNode name l r) collected [] =
  (((visitar name collected).1, []), (visitar name collected).2).
Proof. simpl. rewrite W_bind_eq. simpl. by rewrite app_nil_r. Qed.

Lemma explorar_loop_step name l r collected buf (rest : list string) :
  explorar_loop (RoomNode name l r) collected (buf :: rest) =
  let v := visitar name collected in
  let n := navegar name l r (trim_newline buf) in
  match n.1 with
  | Continua atual' =>
      let res := explorar_loop atual' v.1 rest in
      (res.1, v.2 ++ n.2 ++ res.2)
  | Sai => ((v.1, rest), v.2 ++ n.2)
  end.
Proof.
  cbn [explorar_loop]. rewrite !W_bind_eq. cbn zeta.
  destruct (navegar name l r (trim_newline buf)).1; simpl; [done|].
  by rewrite app_nil_r.
Qed.

Lemma explorar_loop_apresenta name l r collected (ins : list string) :
  ∃ tr, (explorar_loop (RoomNode name l r) collected ins).2 = Printf (MsgSala name) :: tr.
Proof.
  destruct (visitar_trace name collected) as [tr Htr].
  destruct ins as [|buf rest].
  - rewrite explorar_loop_eof. cbn [snd]. eauto.
  - rewrite explorar_loop_step. cbn zeta.
    destruct (navegar name l r (trim_newline buf)).1; cbn [fst snd];
      rewrite Htr; simpl; eauto.
Qed.

(** After [navegar] the loop goes on in a room, never with a null cursor,
    or not at all. *)
Lemma navegar_cursor name l r input atual' :
  (navegar name l r input).1 = Continua atual' → atual' ≠ RoomNULL.
Proof.
  unfold navegar. destruct input as [|c tl]; simpl; [by intros [= <-]|].
  repeat (match goal with |- context [if ?b then _ else _] => destruct b end);
    try (destruct l); try (destruct r); simpl; by intros [= <-].
Qed.

(** A property of all collected clues is kept by the loop when every clue
    of the fixed association has it. *)
Lemma explorar_loop_Forall (P : string → Prop) atual collected (ins : list string) :
  (∀ name c, getClueForRoom name = Some c → P c) →
  Forall P (inorder collected) →
  Forall P (inorder (explorar_loop atual collected ins).1.1).
Proof.
  intros HP. revert atual collected.
  induction ins as [|buf rest IH]; intros [|name l r] collected Hc;
    rewrite ?explorar_loop_NULL; try done.
  - rewrite explorar_loop_eof. cbn [fst]. rewrite visitar_ledger.
    destruct (getClueForRoom name) eqn:E; [|done].
    apply Forall_inorder_inserir; eauto.
  - rewrite explorar_loop_step. cbn zeta.
    assert (Forall P (inorder (visitar name collected).1)) as Hv.
    { rewrite visitar_ledger. destruct (getClueForRoom name) eqn:E; [|done].
      apply Forall_inorder_inserir; eauto. }
    destruct (navegar name l r (trim_newline buf)).1; cbn [fst]; auto.
Qed.

Lemma navegar_sair name l r buf :
  comando_sair buf → navegar name l r (trim_newline buf) = (Sai, [Printf MsgSaindo]).
Proof. intros (c & tl & -> & [-> | ->]); reflexivity. Qed.

Lemma explorar_loop_eof_sair atual collected (ins : list string) buf :
  comando_sair buf →
  (explorar_loop atual collected ins).1.1 =
  (explorar_loop atual collected (ins ++ [buf])).1.1.
Proof.
  intros Hs. revert atual collected.
  induction ins as [|b rest IH]; intros [|name l r] collected;
    rewrite ?explorar_loop_NULL; try done.
  - simpl app. rewrite explorar_loop_eof, explorar_loop_step. cbn zeta.
    by rewrite navegar_sair.
  - simpl app. rewrite !explorar_loop_step. cbn zeta.
    destruct (navegar name l r (trim_newline b)).1; cbn [fst]; auto.
Qed.

End Exploration.

(** * Judgment *)

Section Judgment.

Implicit Types (root : ClueNode) (t : Table) (suspect accused : string).

Lemma count_clues_eq root t suspect :
  count_clues_for_suspect root t suspect =
  (Z.of_nat (length (apontam_para t suspect (inorder root))),
   Consulta <$> inorder root).
Proof.
  unfold apontam_para.
  induction root as [|k l IHl r IHr]; [done|].
  cbn [count_clues_for_suspect inorder]. unfold consultar.
  rewrite !W_bind_eq, IHl, IHr. cbn [fst snd mret W_ret].
  rewrite filter_app, filter_cons, !length_app, fmap_app, fmap_cons, app_nil_r.
  f_equal.
  destruct (encontrarSuspeito t (Some k)) as [s|] eqn:E.
  - destruct (streq s suspect) eqn:Es.
    + apply streq_true in Es as ->. rewrite decide_True by done. simpl. lia.
    + apply streq_false in Es. rewrite decide_False by congruence. lia.
  - rewrite decide_False by done. lia.
Qed.

Lemma count_clues_bounds root t suspect :
  0 <= (count_clues_for_suspect root t suspect).1 <= Z.of_nat (length (inorder root)).
Proof.
  rewrite count_clues_eq. simpl. unfold apontam_para.
  pose proof (length_filter (λ c, encontrarSuspeito t (Some c) = Some suspect)
                            (inorder root)). lia.
Qed.

Lemma strlen_zero (s : string) : (strlen s =? 0) = true ↔ s = "".
Proof. unfold strlen. destruct s; simpl; split; done. Qed.

Lemma verificar_sem_pistas m t (ins : list string) :
  verificarSuspeitoFinal (mkSessao m t ClueNULL ins) =
  (mkSessao m t ClueNULL ins, [Printf MsgNenhumaPista]).
Proof. reflexivity. Qed.

Lemma verificar_eof m t root :
  root ≠ ClueNULL →
  verificarSuspeitoFinal (mkSessao m t root []) = (mkSessao m t root [], preambulo root).
Proof.
  intros Hr. unfold verificarSuspeitoFinal, preambulo. cbn [collected stdin].
  destruct root as [|k l r]; [done|].
  rewrite !W_bind_eq, listarPistas_inorder. by simpl.
Qed.

Lemma verificar_vazio m t root buf (rest : list string) :
  root ≠ ClueNULL → trim_newline buf = "" →
  verificarSuspeitoFinal (mkSessao m t root (buf :: rest)) =
  (mkSessao m t root rest, preambulo root ++ [Printf MsgNenhumSuspeito]).
Proof.
  intros Hr Hb. unfold verificarSuspeitoFinal, preambulo. cbn [collected stdin].
  destruct root as [|k l r]; [done|].
  rewrite Hb. cbn [strlen String.length Z.of_nat Z.eqb].
  rewrite !W_bind_eq, listarPistas_inorder. simpl. by rewrite <- app_assoc.
Qed.

Lemma verificar_acusacao m t root buf (rest : list string) :
  root ≠ ClueNULL → trim_newline buf ≠ "" →
  let accused := trim_newline buf in
  let count := Z.of_nat (length (apontam_para t accused (inorder root))) in
  verificarSuspeitoFinal (mkSessao m t root (buf :: rest)) =
  (mkSessao m t root rest,
   preambulo root ++ (Consulta <$> inorder root) ++
   [Printf (MsgAcusou accused); Printf (MsgContagem accused count);
    Printf (if decide (2 <= count) then MsgAcusacaoValida else MsgAcusacaoFraca)]).
Proof.
  intros Hr Hb accused count.
  unfold verificarSuspeitoFinal, preambulo. cbn [collected stdin table mansao].
  destruct root as [|k l r]; [done|].
  destruct (strlen (trim_newline buf) =? 0) eqn:E.
  { apply strlen_zero in E. done. }
  rewrite !W_bind_eq, listarPistas_inorder, count_clues_eq.
  cbn [fst snd printf mret W_ret]. fold accused count.
  f_equal. simpl. f_equal. rewrite <- !app_assoc. f_equal. simpl. f_equal.
  f_equal. f_equal. f_equal.
  destruct (count >=? 2) eqn:Ec; simpl.
  - rewrite decide_True; [done|]. lia.
  - rewrite decide_False; [done|]. lia.
Qed.

End Judgment.

(** * The claims of the specification *)

Lemma apontam_para_todos (t : Table) (suspect : string) (clues : list string) :
  (∀ c, c ∈ clues → encontrarSuspeito t (Some c) = Some suspect) →
  apontam_para t suspect clues = clues.
Proof.
  unfold apontam_para. induction clues as [|c clues IH]; intros H; [done|].
  rewrite filter_cons, decide_True by (apply H; left).
  f_equal. apply IH. intros c' Hc'. apply H. by right.
Qed.

Lemma apontam_para_nenhum (t : Table) (suspect outro : string) (clues : list string) :
  suspect ≠ outro →
  (∀ c, c ∈ clues → encontrarSuspeito t (Some c) = Some outro) →
  apontam_para t suspect clues = [].
Proof.
  unfold apontam_para. induction clues as [|c clues IH]; intros Hne H; [done|].
  rewrite filter_cons, decide_False.
  - apply IH; [done|]. intros c' Hc'. apply H. by right.
  - rewrite (H c) by left. congruence.
Qed.

Lemma veredito_de_acusacao (pre : list Event) (a b : Event) (count : Z) :
  veredito_de (pre ++ [a; b;
    Printf (if decide (2 <= count) then MsgAcusacaoValida else MsgAcusacaoFraca)]) =
  Some (if decide (2 <= count) then SUPPORTED else WEAK).
Proof.
  unfold veredito_de.
  rewrite (last_app_cons pre [b; _] a). simpl. by destruct (decide _).
Qed.

(** The comparison of the suspect with the accused name is [strcmp]: a
    name typed in another case matches no clue. *)
Example count_is_case_sensitive :
  let root := inserirPistas ["Vidro quebrado"; "Livro deslocado"; "Fibra vermelha"] ClueNULL in
  (count_clues_for_suspect root popularTabelaHash "sra. rosa").1 = 0.
Proof. by vm_compute. Qed.

(** Two clues for the accused are enough, one is not. *)
Example count_threshold :
  let root := inserirPistas ["Carta rasgada"; "Faca com impressões"; "Frascos vazios"] ClueNULL in
  let run accused :=
    veredito_de (verificarSuspeitoFinal
                   (mkSessao construirMansao popularTabelaHash root [linha accused])).2 in
  run "Sr. Preto" = Some SUPPORTED ∧ run "Dr. Azul" = Some WEAK.
Proof. by vm_compute. Qed.

(** C1. [count_clues_for_suspect] walks the ledger in order, looks every
    clue up in the index (one call of [encontrarSuspeito] per clue, in
    ledger order) and returns the number of clues whose suspect is the
    accused name, compared byte for byte. [verificarSuspeitoFinal] prints
    that count and renders SUPPORTED exactly when it is at least 2, WEAK
    otherwise. With a ledger that holds exactly "Vidro quebrado", "Livro
    deslocado" and "Fibra vermelha", all three mapped to "Sra. Rosa",
    accusing "Sra. Rosa" gives 3 and SUPPORTED, accusing "Sr. Verde" gives
    0 and WEAK. *)
Theorem verdict_counts_matching_clues :
  (∀ (root : ClueNode) (t : Table) (accused : string),
     count_clues_for_suspect root t accused =
     (Z.of_nat (length (apontam_para t accused (inorder root))),
      Consulta <$> inorder root)) ∧
  (∀ (m : Room) (t : Table) (root : ClueNode) (buf : string) (rest : list string),
     root ≠ ClueNULL → trim_newline buf ≠ "" →
     let accused := trim_newline buf in
     let count := (count_clues_for_suspect root t accused).1 in
     let res := verificarSuspeitoFinal (mkSessao m t root (buf :: rest)) in
     res.2 = preambulo root ++ (Consulta <$> inorder root) ++
             [Printf (MsgAcusou accused); Printf (MsgContagem accused count);
              Printf (if decide (2 <= count) then MsgAcusacaoValida
                      else MsgAcusacaoFraca)] ∧
     veredito_de res.2 = Some (if decide (2 <= count) then SUPPORTED else WEAK)) ∧
  (∀ (m : Room) (t : Table) (root : ClueNode) (rest : list string),
     inorder root ≡ₚ ["Vidro quebrado"; "Livro deslocado"; "Fibra vermelha"] →
     (∀ c, c ∈ inorder root → encontrarSuspeito t (Some c) = Some "Sra. Rosa") →
     let rosa := verificarSuspeitoFinal (mkSessao m t root (linha "Sra. Rosa" :: rest)) in
     let verde := verificarSuspeitoFinal (mkSessao m t root (linha "Sr. Verde" :: rest)) in
     (count_clues_for_suspect root t "Sra. Rosa").1 = 3 ∧
     Printf (MsgContagem "Sra. Rosa" 3) ∈ rosa.2 ∧
     veredito_de rosa.2 = Some SUPPORTED ∧
     (count_clues_for_suspect root t "Sr. Verde").1 = 0 ∧
     Printf (MsgContagem "Sr. Verde" 0) ∈ verde.2 ∧
     veredito_de verde.2 = Some WEAK).
Proof.
  assert (∀ m t root buf rest,
     root ≠ ClueNULL → trim_newline buf ≠ "" →
     let accused := trim_newline buf in
     let count := (count_clues_for_suspect root t accused).1 in
     let res := verificarSuspeitoFinal (mkSessao m t root (buf :: rest)) in
     res.2 = preambulo root ++ (Consulta <$> inorder root) ++
             [Printf (MsgAcusou accused); Printf (MsgContagem accused count);
              Printf (if decide (2 <= count) then MsgAcusacaoValida
                      else MsgAcusacaoFraca)] ∧
     veredito_de res.2 = Some (if decide (2 <= count) then SUPPORTED else WEAK))
    as Hrender.
  { intros m t root buf rest Hr Hb accused count res.
    assert (res.2 = preambulo root ++ (Consulta <$> inorder root) ++
             [Printf (MsgAcusou accused); Printf (MsgContagem accused count);
              Printf (if decide (2 <= count) then MsgAcusacaoValida
                      else MsgAcusacaoFraca)]) as Hres.
    { unfold res, count. rewrite verificar_acusacao by done.
      by rewrite count_clues_eq. }
    split; [done|]. rewrite Hres, app_assoc. apply veredito_de_acusacao. }
  split; [apply count_clues_eq|]. split; [exact Hrender|].
  intros m t root rest Hperm Hrosa rosa verde.
  assert (root ≠ ClueNULL) as Hr.
  { intros ->. by apply Permutation_nil_cons in Hperm. }
  assert ((count_clues_for_suspect root t "Sra. Rosa").1 = 3) as H3.
  { rewrite count_clues_eq. cbn [fst].
    rewrite apontam_para_todos by done. by rewrite Hperm. }
  assert ((count_clues_for_suspect root t "Sr. Verde").1 = 0) as H0.
  { rewrite count_clues_eq. cbn [fst].
    by rewrite (apontam_para_nenhum t "Sr. Verde" "Sra. Rosa"). }
  destruct (Hrender m t root (linha "Sra. Rosa") rest Hr ltac:(done)) as [R1 R2].
  destruct (Hrender m t root (linha "Sr. Verde") rest Hr ltac:(done)) as [V1 V2].
  change (trim_newline (linha "Sra. Rosa")) with "Sra. Rosa" in R1, R2.
  change (trim_newline (linha "Sr. Verde")) with "Sr. Verde" in V1, V2.
  rewrite H3 in R1, R2. rewrite H0 in V1, V2.
  repeat split; try done.
  - unfold rosa. rewrite R1, !elem_of_app. right. right. rewrite !elem_of_cons. auto.
  - unfold verde. rewrite V1, !elem_of_app. right. right. rewrite !elem_of_cons. auto.
Qed.

Lemma verdict_counts_matching_clues_witness :
  let root := inserirPistas ["Vidro quebrado"; "Livro deslocado"; "Fibra vermelha"] ClueNULL in
  let t := popularTabelaHash in
  inorder root ≡ₚ ["Vidro quebrado"; "Livro deslocado"; "Fibra vermelha"] ∧
  (∀ c, c ∈ inorder root → encontrarSuspeito t (Some c) = Some "Sra. Rosa") ∧
  (count_clues_for_suspect root t "Sra. Rosa").1 = 3 ∧
  veredito_de (verificarSuspeitoFinal
                 (mkSessao construirMansao t root [linha "Sra. Rosa"])).2 = Some SUPPORTED ∧
  (count_clues_for_suspect root t "Sr. Verde").1 = 0 ∧
  veredito_de (verificarSuspeitoFinal
                 (mkSessao construirMansao t root [linha "Sr. Verde"])).2 = Some WEAK.
Proof.
  intros root t.
  assert (inorder root ≡ₚ ["Vidro quebrado"; "Livro deslocado"; "Fibra vermelha"]) as Hp.
  { change (inorder root) with ["Fibra vermelha"; "Livro deslocado"; "Vidro quebrado"].
    apply (Permutation_rev ["Fibra vermelha"; "Livro deslocado"; "Vidro quebrado"]). }
  assert (∀ c, c ∈ inorder root → encontrarSuspeito t (Some c) = Some "Sra. Rosa") as Hl.
  { change (inorder root) with ["Fibra vermelha"; "Livro deslocado"; "Vidro quebrado"].
    intros c Hc. repeat (apply elem_of_cons in Hc as [->|Hc]; [by vm_compute|]).
    by apply elem_of_nil in Hc. }
  destruct verdict_counts_matching_clues as (_ & _ & H).
  destruct (H construirMansao t root [] Hp Hl) as (H1 & _ & H2 & H3 & _ & H4).
  repeat split; assumption.
Defined.

(** C2. Whatever clues are inserted into the empty ledger, in whatever
    order, the tree is a binary search tree under [strcmp], no text occurs
    twice in it, and the in-order walk, which is what [listarPistas]
    prints, is non-decreasing (indeed strictly increasing). *)
Theorem ledger_is_search_tree (clues : list string) :
  let root := inserirPistas clues ClueNULL in
  bst root ∧
  NoDup (inorder root) ∧
  Sorted str_le (inorder root) ∧
  StronglySorted str_lt (inorder root) ∧
  (listarPistas root).2 = (λ c, Printf (MsgItem c)) <$> inorder root.
Proof.
  intros root.
  assert (bst root) as Hb by (by apply bst_inserirPistas).
  pose proof (bst_sorted root Hb) as Hs.
  repeat split; [done| |by apply sorted_lt_le|done|].
  - by apply sorted_lt_NoDup.
  - by rewrite listarPistas_inorder.
Qed.

(** C3. On a ledger that is a search tree, [inserirPista] returns the very
    same tree when the text is already there; otherwise it replaces one
    null pointer by a node without children that holds the text, which
    lands between the smaller and the greater texts of the in-order walk,
    so that the clues are the old ones plus the new one. Inserting a text
    twice is the same as inserting it once and leaves one node with that
    text; an insertion lengthens the in-order walk by at most one. *)
Theorem inserirPista_dedup_or_new_leaf (root : ClueNode) (clue : string) :
  bst root →
  let root' := inserirPista root (Some clue) in
  (clue ∈ inorder root → root' = root) ∧
  (clue ∉ inorder root →
     novo_no root clue root' ∧
     ∃ xs ys, inorder root = xs ++ ys ∧ inorder root' = xs ++ clue :: ys ∧
              Forall (λ x, str_lt x clue) xs ∧ Forall (λ x, str_lt clue x) ys) ∧
  (∀ x, x ∈ inorder root' ↔ x = clue ∨ x ∈ inorder root) ∧
  bst root' ∧
  inserirPista root' (Some clue) = root' ∧
  length (filter (λ x, x = clue) (inorder root')) = 1%nat ∧
  (length (inorder root) ≤ length (inorder root') ≤ S (length (inorder root)))%nat.
Proof.
  intros Hb root'.
  assert (bst root') as Hb' by (by apply bst_inserir).
  split; [by apply inserirPista_presente|].
  split; [by apply inserirPista_ausente|].
  split; [intros x; apply elem_of_inorder_inserir|].
  split; [done|].
  split; [apply inserirPista_idem|].
  split; [|apply length_inorder_inserir].
  assert (clue ∈ inorder root') as Hin by (apply elem_of_inorder_inserir; by left).
  pose proof (sorted_lt_NoDup _ (bst_sorted _ Hb')) as Hnd.
  apply list_elem_of_split in Hin as (xs & ys & Heq).
  rewrite Heq in Hnd |- *.
  apply NoDup_app in Hnd as (_ & Hxs & Hys).
  apply NoDup_cons in Hys as [Hys _].
  rewrite filter_app, filter_cons, decide_True by done.
  rewrite !filter_eq_absent; [done|done|].
  intros Hx. apply (Hxs clue Hx). by left.
Qed.

Lemma inserirPista_dedup_or_new_leaf_witness :
  let root := inserirPistas ["Vidro quebrado"; "Livro deslocado"] ClueNULL in
  bst root ∧
  inserirPista root (Some "Livro deslocado") = root ∧
  novo_no root "Fibra vermelha" (inserirPista root (Some "Fibra vermelha")) ∧
  length (filter (λ x, x = "Fibra vermelha")
            (inorder (inserirPista root (Some "Fibra vermelha")))) = 1%nat.
Proof.
  intros root.
  assert (bst root) as Hb by (apply (bool_decide_unpack _); by vm_compute).
  split; [exact Hb|].
  destruct (inserirPista_dedup_or_new_leaf root "Livro deslocado" Hb) as (H1 & _).
  destruct (inserirPista_dedup_or_new_leaf root "Fibra vermelha" Hb)
    as (_ & H2 & _ & _ & _ & H3 & _).
  change (inorder root) with ["Livro deslocado"; "Vidro quebrado"] in H1, H2.
  split; [apply H1; rewrite !elem_of_cons; auto|].
  split; [|exact H3].
  apply H2. rewrite !elem_of_cons, elem_of_nil.
  intros [H|[H|H]]; done.
Defined.

Lemma fmap_key_concat (t : Table) :
  key <$> concat t = concat ((λ chain : list HashEntry, key <$> chain) <$> t).
Proof.
  induction t as [|chain t IH]; [done|].
  simpl. by rewrite fmap_app, IH.
Qed.

(** Writing a clue that the index already holds changes no key of any
    chain: the entry is updated where it is. *)
Lemma keys_inserir_presente (t : Table) (c s s' : string) :
  length t = Z.to_nat HASH_SIZE →
  encontrarSuspeito t (Some c) = Some s →
  (λ chain : list HashEntry, key <$> chain) <$> inserirNaHash t (Some c) (Some s') =
  (λ chain : list HashEntry, key <$> chain) <$> t.
Proof.
  intros Hlen Hs. simpl in *.
  pose proof (hash_func_index t c Hlen) as Hi.
  destruct (substituir (bucket t (hash_func c)) c s') as [chain|] eqn:E.
  - rewrite list_fmap_insert. apply list_insert_id.
    rewrite list_lookup_fmap, (bucket_lookup t _ Hi). simpl.
    by rewrite (substituir_keys _ _ _ _ E).
  - apply substituir_None in E. congruence.
Qed.

(** C4. On a well-formed index, writing a suspect for a clue and then
    another suspect for the same clue leaves one entry for that clue in
    the whole table, the one with the second suspect; the lookup returns
    the second suspect, not the first; and the second write appends
    nothing: the keys of all chains are what they were after the first. *)
Theorem inserirNaHash_last_write_wins (t : Table) (c s1 s2 : string) :
  tabela_ok t →
  let t1 := inserirNaHash t (Some c) (Some s1) in
  let t2 := inserirNaHash t1 (Some c) (Some s2) in
  entradas_de t2 c = [mkEntry c s2] ∧
  length (entradas_de t2 c) = 1%nat ∧
  encontrarSuspeito t2 (Some c) = Some s2 ∧
  (s1 ≠ s2 → encontrarSuspeito t2 (Some c) ≠ Some s1) ∧
  key <$> concat t2 = key <$> concat t1 ∧
  tabela_ok t2.
Proof.
  intros Hok t1 t2.
  assert (tabela_ok t1) as Hok1 by (by apply tabela_ok_inserir).
  assert (tabela_ok t2) as Hok2 by (by apply tabela_ok_inserir).
  assert (encontrarSuspeito t1 (Some c) = Some s1) as H1.
  { unfold t1. rewrite encontrar_inserir by apply Hok. by rewrite decide_True. }
  assert (encontrarSuspeito t2 (Some c) = Some s2) as H2.
  { unfold t2. rewrite encontrar_inserir by apply Hok1. by rewrite decide_True. }
  assert (entradas_de t2 c = [mkEntry c s2]) as He
    by (by apply entradas_de_encontrar).
  split; [done|]. split; [by rewrite He|]. split; [done|].
  split; [rewrite H2; congruence|]. split; [|done].
  rewrite !fmap_key_concat. unfold t2.
  by rewrite (keys_inserir_presente t1 c s1 s2) by (apply Hok1 || done).
Qed.

Lemma inserirNaHash_last_write_wins_witness :
  let t := popularTabelaHash in
  let t2 := inserirNaHash (inserirNaHash t (Some "Carta rasgada") (Some "Dr. Azul"))
              (Some "Carta rasgada") (Some "Sr. Verde") in
  tabela_ok t ∧
  entradas_de t2 "Carta rasgada" = [mkEntry "Carta rasgada" "Sr. Verde"] ∧
  encontrarSuspeito t2 (Some "Carta rasgada") = Some "Sr. Verde".
Proof.
  intros t t2.
  assert (tabela_ok t) as Hok by apply tabela_ok_popular.
  split; [exact Hok|].
  destruct (inserirNaHash_last_write_wins t "Carta rasgada" "Dr. Azul" "Sr. Verde" Hok)
    as (H1 & _ & H2 & _).
  split; [exact H1 | exact H2].
Defined.

(** C5. After any sequence of writes into the empty index, the lookup of a
    clue returns the suspect of the last write for exactly that clue, and
    a null result when no write was for it. Two different clues with the
    same hash, hence in the same chain, are each looked up with their own
    suspect: the chain is searched by [strcmp], not by the hash. *)
Theorem encontrarSuspeito_most_recent :
  (∀ (ops : list (string * string)) (c : string),
     encontrarSuspeito (inserirAssociacoes ops tabela_vazia) (Some c) =
     ultima_associacao ops c) ∧
  (∀ (ops : list (string * string)) (c : string),
     c ∉ ops.*1 →
     encontrarSuspeito (inserirAssociacoes ops tabela_vazia) (Some c) = None) ∧
  (∀ (ops : list (string * string)) (c1 c2 s1 s2 : string),
     c1 ≠ c2 → hash_func c1 = hash_func c2 →
     let t := inserirAssociacoes ops tabela_vazia in
     let t' := inserirNaHash (inserirNaHash t (Some c1) (Some s1)) (Some c2) (Some s2) in
     bucket t' (hash_func c1) = bucket t' (hash_func c2) ∧
     encontrarSuspeito t' (Some c1) = Some s1 ∧
     encontrarSuspeito t' (Some c2) = Some s2).
Proof.
  assert (∀ ops c,
     encontrarSuspeito (inserirAssociacoes ops tabela_vazia) (Some c) =
     ultima_associacao ops c) as Hlast.
  { intros ops c.
    rewrite encontrar_inserirAssociacoes by apply length_tabela_vazia.
    rewrite encontrar_tabela_vazia. by destruct (ultima_associacao ops c). }
  split; [exact Hlast|]. split.
  - intros ops c Hc. rewrite Hlast. by apply ultima_associacao_None.
  - intros ops c1 c2 s1 s2 Hne Hh t t'.
    assert (length t = Z.to_nat HASH_SIZE) as Hlen.
    { unfold t. by rewrite length_inserirAssociacoes, length_tabela_vazia. }
    split; [by rewrite Hh|].
    unfold t'. rewrite !encontrar_inserir by (by rewrite ?length_inserirNaHash).
    rewrite (decide_False (P := c1 = c2)) by done.
    by rewrite !decide_True.
Qed.

Lemma encontrarSuspeito_most_recent_witness :
  let c1 := "Carta rasgada" in
  let c2 := "Pegada pequena" in
  let t' := inserirNaHash (inserirNaHash tabela_vazia (Some c1) (Some "Sr. Preto"))
              (Some c2) (Some "Sra. Rosa") in
  c1 ≠ c2 ∧ hash_func c1 = hash_func c2 ∧
  encontrarSuspeito t' (Some c1) = Some "Sr. Preto" ∧
  encontrarSuspeito t' (Some c2) = Some "Sra. Rosa" ∧
  encontrarSuspeito t' (Some "Vidro quebrado") = None.
Proof.
  intros c1 c2 t'.
  assert (c1 ≠ c2) as Hne by done.
  assert (hash_func c1 = hash_func c2) as Hh by (by vm_compute).
  destruct encontrarSuspeito_most_recent as (_ & Hnone & Hcol).
  destruct (Hcol [] c1 c2 "Sr. Preto" "Sra. Rosa" Hne Hh) as (_ & H1 & H2).
  split; [exact Hne|]. split; [exact Hh|]. split; [exact H1|]. split; [exact H2|].
  apply (Hnone [(c1, "Sr. Preto"); (c2, "Sra. Rosa")] "Vidro quebrado").
  simpl. rewrite !elem_of_cons, elem_of_nil. intros [H|[H|H]]; done.
Defined.

Lemma explorarSalas_eq (st : Sessao) :
  explorarSalas st =
  let res := explorar_loop (mansao st) (collected st) (stdin st) in
  (mkSessao (mansao st) (table st) res.1.1 res.1.2,
   Printf MsgInicioExploracao :: res.2 ++ [Printf MsgFimExploracao]).
Proof. unfold explorarSalas. rewrite !W_bind_eq. reflexivity. Qed.

Lemma veredito_de_preambulo (root : ClueNode) : veredito_de (preambulo root) = None.
Proof.
  unfold veredito_de, preambulo.
  by rewrite app_comm_cons, last_snoc.
Qed.

Lemma Consulta_notin_preambulo (root : ClueNode) (c : string) (tl : list Event) :
  Forall (λ e, e ≠ Consulta c) tl → Forall (λ e, e ≠ Consulta c) (preambulo root ++ tl).
Proof.
  intros Htl. unfold preambulo. apply Forall_app. split; [|done].
  apply Forall_cons. split; [done|]. apply Forall_app. split.
  - apply Forall_fmap, Forall_forall. by intros x _.
  - by repeat constructor.
Qed.

(** C6. With an empty ledger the judgment ends at once with NO_EVIDENCE:
    it prints that single line, reads nothing from the standard input,
    does not print the prompt for the accused, and never calls
    [encontrarSuspeito], whatever the index and the pending input are. *)
Theorem verdict_empty_ledger_no_evidence (m : Room) (t : Table) (ins : list string) :
  let st := mkSessao m t ClueNULL ins in
  let res := verificarSuspeitoFinal st in
  res = (st, [Printf MsgNenhumaPista]) ∧
  veredito_de res.2 = Some NO_EVIDENCE ∧
  stdin res.1 = ins ∧
  (Printf MsgDigiteSuspeito ∉ res.2) ∧
  (∀ c, Consulta c ∉ res.2).
Proof.
  intros st res. unfold res, st. rewrite verificar_sem_pistas. simpl.
  repeat split; try done.
  - rewrite list_elem_of_singleton. done.
  - intros c. rewrite list_elem_of_singleton. done.
Qed.

(** C7. One round of navigation in a room, on a non-empty input: on 'e' or
    'E' the cursor moves to the left room if there is one, and otherwise
    stays while the dead end is reported; likewise on 'd' or 'D' to the
    right; on 's' or 'S' the exploration ends; on any other first
    character the option is reported as invalid and the cursor stays.
    Only the first character counts. The loop goes on from the cursor that
    the round leaves, and begins by presenting that room. *)
Theorem navegar_step (name : string) (l r : Room) (c : ascii) (tl : string) :
  let atual := RoomNode name l r in
  let input := String c tl in
  ((c = "e" ∨ c = "E")%char →
     navegar name l r input =
     match l with
     | RoomNULL => (Continua atual, [Printf MsgSemEsquerda])
     | RoomNode _ _ _ => (Continua l, [])
     end) ∧
  ((c = "d" ∨ c = "D")%char →
     navegar name l r input =
     match r with
     | RoomNULL => (Continua atual, [Printf MsgSemDireita])
     | RoomNode _ _ _ => (Continua r, [])
     end) ∧
  ((c = "s" ∨ c = "S")%char → navegar name l r input = (Sai, [Printf MsgSaindo])) ∧
  (c ∉ comandos → navegar name l r input = (Continua atual, [Printf MsgOpcaoInvalida])) ∧
  (∀ (collected : ClueNode) (buf : string) (rest : list string),
     trim_newline buf = input →
     let v := visitar name collected in
     let n := navegar name l r input in
     explorar_loop atual collected (buf :: rest) =
     match n.1 with
     | Continua atual' =>
         let res := explorar_loop atual' v.1 rest in
         (res.1, v.2 ++ n.2 ++ res.2)
     | Sai => ((v.1, rest), v.2 ++ n.2)
     end) ∧
  (∀ (collected : ClueNode) (ins : list string),
     ∃ tr, (explorar_loop atual collected ins).2 = Printf (MsgSala name) :: tr).
Proof.
  intros atual input.
  split; [intros [-> | ->]; by destruct l|].
  split; [intros [-> | ->]; by destruct r|].
  split; [intros [-> | ->]; reflexivity|].
  split.
  - unfold comandos. rewrite !not_elem_of_cons.
    intros (He & HE & Hd & HD & Hs & HS & _).
    unfold input, navegar.
    apply Ascii.eqb_neq in He, HE, Hd, HD, Hs, HS.
    by rewrite He, HE, Hd, HD, Hs, HS.
  - split.
    + intros collected buf rest Hb v n. unfold atual, v, n.
      rewrite explorar_loop_step. cbn zeta. by rewrite Hb.
    + intros collected ins. apply explorar_loop_apresenta.
Qed.

Lemma navegar_step_witness :
  let sotao := RoomNode "Sótão" RoomNULL RoomNULL in
  let biblioteca := RoomNode "Biblioteca" sotao RoomNULL in
  navegar "Biblioteca" sotao RoomNULL "esquerda" = (Continua sotao, []) ∧
  navegar "Biblioteca" sotao RoomNULL "D" = (Continua biblioteca, [Printf MsgSemDireita]) ∧
  navegar "Biblioteca" sotao RoomNULL "sair" = (Sai, [Printf MsgSaindo]) ∧
  navegar "Biblioteca" sotao RoomNULL "x" = (Continua biblioteca, [Printf MsgOpcaoInvalida]) ∧
  (explorar_loop biblioteca ClueNULL [linha "d"; linha "s"]).1.1 =
  (explorar_loop biblioteca (visitar "Biblioteca" ClueNULL).1 [linha "s"]).1.1.
Proof.
  intros sotao biblioteca.
  destruct (navegar_step "Biblioteca" sotao RoomNULL "e" "squerda") as (H1 & _).
  destruct (navegar_step "Biblioteca" sotao RoomNULL "D" "") as (_ & H2 & _).
  destruct (navegar_step "Biblioteca" sotao RoomNULL "s" "air") as (_ & _ & H3 & _).
  destruct (navegar_step "Biblioteca" sotao RoomNULL "x" "") as (_ & _ & _ & H4 & _).
  destruct (navegar_step "Biblioteca" sotao RoomNULL "d" "") as (_ & _ & _ & _ & H5 & _).
  split; [apply H1; by left|].
  split; [apply H2; by right|].
  split; [apply H3; by left|].
  split.
  - apply H4. unfold comandos. rewrite !elem_of_cons, elem_of_nil.
    intros [H|[H|[H|[H|[H|[H|H]]]]]]; done.
  - fold biblioteca in H5.
    by rewrite (H5 ClueNULL (linha "d") [linha "s"] eq_refl).
Defined.

(** C9. End of input is not an error. At the exploration prompt it ends
    the loop with the ledger collected so far, the clue of the current
    room included, which is the ledger that a final "s" would give. At
    the prompt for the accused it ends the judgment after the prompt: no
    lookup, no count and no verdict, as for an empty line, which differs
    only by the notice that no suspect was given. [main] returns 0. *)
Theorem end_of_input_is_graceful :
  (∀ (name : string) (l r : Room) (collected : ClueNode),
     explorar_loop (RoomNode name l r) collected [] =
     (((visitar name collected).1, []), (visitar name collected).2)) ∧
  (∀ (st : Sessao) (buf : string),
     comando_sair buf →
     let eof := explorarSalas st in
     let sair := explorarSalas
                   (mkSessao (mansao st) (table st) (collected st) (stdin st ++ [buf])) in
     collected eof.1 = collected sair.1) ∧
  (∀ (m : Room) (t : Table) (root : ClueNode),
     root ≠ ClueNULL →
     let eof := verificarSuspeitoFinal (mkSessao m t root []) in
     eof = (mkSessao m t root [], preambulo root) ∧
     veredito_de eof.2 = None ∧
     (∀ c, Consulta c ∉ eof.2) ∧
     ∀ (buf : string) (rest : list string), trim_newline buf = "" →
       let vazio := verificarSuspeitoFinal (mkSessao m t root (buf :: rest)) in
       vazio.2 = eof.2 ++ [Printf MsgNenhumSuspeito] ∧
       veredito_de vazio.2 = None ∧
       collected vazio.1 = collected eof.1 ∧ table vazio.1 = table eof.1) ∧
  (∀ ins : list string, (main ins).1 = 0).
Proof.
  split; [apply explorar_loop_eof|]. split.
  - intros st buf Hs eof sair. unfold eof, sair.
    rewrite !explorarSalas_eq. cbn [fst collected mansao stdin].
    by apply explorar_loop_eof_sair.
  - split.
    + intros m t root Hr eof. unfold eof. rewrite verificar_eof by done.
      cbn [fst snd]. split; [done|]. split; [apply veredito_de_preambulo|].
      split.
      * intros c.
        pose proof (Consulta_notin_preambulo root c [] ltac:(constructor)) as Hf.
        rewrite app_nil_r, Forall_forall in Hf. intros Hc. by apply (Hf _ Hc).
      * intros buf rest Hb.
        rewrite verificar_vazio by done. cbn [fst snd collected table].
        split; [done|]. split; [|done].
        unfold veredito_de. by rewrite last_snoc.
    + intros ins. unfold main. by rewrite !W_bind_fst.
Qed.

Lemma end_of_input_is_graceful_witness :
  let st := mkSessao construirMansao popularTabelaHash ClueNULL [linha "e"] in
  comando_sair (linha "s") ∧
  inorder (collected (explorarSalas st).1) = ["Pegadas lamacentas"; "Vidro quebrado"] ∧
  collected (explorarSalas st).1 =
  collected (explorarSalas
               (mkSessao construirMansao popularTabelaHash ClueNULL [linha "e"; linha "s"])).1 ∧
  veredito_de (verificarSuspeitoFinal (explorarSalas st).1).2 = None.
Proof.
  intros st.
  assert (comando_sair (linha "s")) as Hs.
  { exists "s"%char, "". split; [reflexivity | by left]. }
  destruct end_of_input_is_graceful as (_ & H2 & H3 & _).
  split; [exact Hs|]. split; [reflexivity|].
  split; [exact (H2 st (linha "s") Hs)|].
  destruct (H3 construirMansao popularTabelaHash (collected (explorarSalas st).1))
    as (_ & Hv & _); [done|].
  exact Hv.
Defined.

Lemma getClueForRoom_na_tabela (name c : string) :
  getClueForRoom name = Some c →
  is_Some (encontrarSuspeito popularTabelaHash (Some c)).
Proof.
  unfold getClueForRoom.
  destruct (streq name "Entrada"); [intros [= <-]; vm_compute; by eexists|].
  destruct (streq name "Salão"); [intros [= <-]; vm_compute; by eexists|].
  destruct (streq name "Cozinha"); [intros [= <-]; vm_compute; by eexists|].
  destruct (streq name "Biblioteca"); [intros [= <-]; vm_compute; by eexists|].
  destruct (streq name "Escritório"); [intros [= <-]; vm_compute; by eexists|].
  destruct (streq name "Quarto"); [intros [= <-]; vm_compute; by eexists|].
  destruct (streq name "Varanda"); [intros [= <-]; vm_compute; by eexists|].
  destruct (streq name "Sótão"); [intros [= <-]; vm_compute; by eexists|].
  destruct (streq name "Porão"); [intros [= <-]; vm_compute; by eexists|].
  intros [=].
Qed.

(** C10. Each of the nine clues that [explorarSalas] can collect is a key
    of the index that [popularTabelaHash] builds. Hence, for any input,
    every clue of the ledger that the exploration of the mansion leaves is
    found by the lookup of the judgment: [encontrarSuspeito] never returns
    null for it. *)
Theorem collected_clues_are_indexed (ins : list string) :
  let st := (explorarSalas (mkSessao construirMansao popularTabelaHash ClueNULL ins)).1 in
  (∀ name c, getClueForRoom name = Some c →
     is_Some (encontrarSuspeito popularTabelaHash (Some c))) ∧
  table st = popularTabelaHash ∧
  ∀ c, c ∈ inorder (collected st) → is_Some (encontrarSuspeito (table st) (Some c)).
Proof.
  intros st. split; [apply getClueForRoom_na_tabela|].
  unfold st. rewrite explorarSalas_eq. cbn [fst table collected mansao stdin].
  split; [done|].
  apply Forall_forall, explorar_loop_Forall; [|constructor].
  apply getClueForRoom_na_tabela.
Qed.

Lemma collected_clues_are_indexed_witness :
  let st := (explorarSalas (mkSessao construirMansao popularTabelaHash ClueNULL
                              [linha "e"; linha "d"; linha "d"])).1 in
  "Pegada pequena" ∈ inorder (collected st) ∧
  is_Some (encontrarSuspeito (table st) (Some "Pegada pequena")).
Proof.
  intros st.
  assert ("Pegada pequena" ∈ inorder (collected st)) as Hin.
  { change (inorder (collected st)) with
      ["Carta rasgada"; "Pegada pequena"; "Pegadas lamacentas"; "Vidro quebrado"].
    rewrite !elem_of_cons. auto. }
  split; [exact Hin|].
  destruct (collected_clues_are_indexed [linha "e"; linha "d"; linha "d"]) as (_ & _ & H).
  exact (H "Pegada pequena" Hin).
Defined.

(** * Further properties of the code *)

(** ** [trim_newline] *)

Lemma trim_newline_linha (s : string) : trim_newline (linha s) = s.
Proof.
  unfold linha. induction s as [|c t IH]; [done|].
  destruct t as [|c' t']; [done|].
  change (trim_newline (String c (String c' t') +:+ String newline ""))
    with (String c (trim_newline (String c' t' +:+ String newline ""))).
  by rewrite IH.
Qed.

Lemma trim_newline_cases (s : string) :
  trim_newline s = s ∨ s = linha (trim_newline s).
Proof.
  induction s as [|c t IH]; [by left|].
  destruct t as [|c' t'].
  - cbn [trim_newline]. destruct (Ascii.eqb_spec c newline) as [->|Hne].
    + by right.
    + by left.
  - change (trim_newline (String c (String c' t')))
      with (String c (trim_newline (String c' t'))).
    destruct IH as [IH|IH].
    + left. by rewrite IH.
    + right. unfold linha in *.
      change (String c (String c' t') =
              String c (trim_newline (String c' t') +:+ String newline "")).
      by f_equal.
Qed.

Lemma length_linha (s : string) : String.length (linha s) = S (String.length s).
Proof. unfold linha. induction s as [|c t IH]; simpl; [done|]. by rewrite IH. Qed.

(** X1. [trim_newline] undoes the line feed that ends a line: for every
    text [s], the buffer [s] followed by a line feed is trimmed to [s],
    also when [s] itself ends with line feeds (only one is removed). Any
    buffer is either returned as it is or is its result followed by one
    line feed, so at most one byte is dropped; the empty buffer stays
    empty. *)
Theorem trim_newline_removes_one_line_feed (s : string) :
  trim_newline (linha s) = s ∧
  (trim_newline s = s ∨ s = linha (trim_newline s)) ∧
  (String.length (trim_newline s) ≤ String.length s ≤
   S (String.length (trim_newline s)))%nat ∧
  trim_newline "" = "".
Proof.
  split; [apply trim_newline_linha|].
  split; [apply trim_newline_cases|].
  split; [|done].
  destruct (trim_newline_cases s) as [->|H]; [lia|].
  rewrite H at 2 3. rewrite length_linha. lia.
Qed.

(** ** [str_tolower_inplace] *)

Lemma uchar_to_char (z : Z) : 0 <= z < 256 → uchar (to_char z) = z.
Proof.
  intros Hz. unfold uchar, to_char.
  rewrite N_ascii_embedding by lia. lia.
Qed.

Lemma to_char_uchar (c : ascii) : to_char (uchar c) = c.
Proof.
  unfold uchar, to_char. by rewrite N2Z.id, ascii_N_embedding.
Qed.

Lemma tolower_range (z : Z) : 0 <= z < 256 → 0 <= tolower z < 256.
Proof.
  unfold tolower. intros Hz.
  destruct (65 <=? z) eqn:E1, (z <=? 90) eqn:E2; simpl; lia.
Qed.

Lemma tolower_not_upper (z : Z) : ¬ (65 <= tolower z <= 90).
Proof.
  unfold tolower.
  destruct (65 <=? z) eqn:E1, (z <=? 90) eqn:E2; simpl; lia.
Qed.

Lemma tolower_fixed (z : Z) : ¬ (65 <= z <= 90) → tolower z = z.
Proof.
  unfold tolower. intros Hz.
  destruct (65 <=? z) eqn:E1, (z <=? 90) eqn:E2; simpl; lia.
Qed.

Lemma str_tolower_fixed (s : string) :
  Forall (λ c, ¬ maiuscula c) (list_ascii_of_string s) →
  str_tolower_inplace s = s.
Proof.
  induction s as [|c t IH]; [done|].
  cbn [list_ascii_of_string str_tolower_inplace].
  intros [Hc Ht]%Forall_cons.
  by rewrite IH, tolower_fixed, to_char_uchar.
Qed.

Lemma str_tolower_no_upper (s : string) :
  Forall (λ c, ¬ maiuscula c) (list_ascii_of_string (str_tolower_inplace s)).
Proof.
  induction s as [|c t IH]; [constructor|].
  cbn [list_ascii_of_string str_tolower_inplace].
  constructor; [|done]. unfold maiuscula.
  rewrite uchar_to_char by apply tolower_range, uchar_range.
  apply tolower_not_upper.
Qed.

Lemma str_tolower_bytes (s : string) :
  list_ascii_of_string (str_tolower_inplace s) =
  (λ c, if decide (65 <= uchar c <= 90) then to_char (uchar c + 32) else c) <$>
  list_ascii_of_string s.
Proof.
  induction s as [|c t IH]; [done|].
  cbn [list_ascii_of_string str_tolower_inplace fmap list_fmap]. f_equal; [|exact IH].
  destruct (decide (65 <= uchar c <= 90)) as [[H1 H2]|Hn].
  - unfold tolower. by rewrite (proj2 (Z.leb_le _ _) H1), (proj2 (Z.leb_le _ _) H2).
  - by rewrite tolower_fixed, to_char_uchar.
Qed.

(** X2. [str_tolower_inplace] rewrites the string byte by byte: every
    byte that is a letter 'A'..'Z' becomes the byte 32 above it, which is
    the letter 'a'..'z', and every other byte, bytes above 127 included,
    is kept, at the same position. Hence the length is kept, no
    upper-case ASCII letter is left, a string that has none is unchanged,
    and lowering twice is lowering once. *)
Theorem str_tolower_inplace_lowers_ascii (s : string) :
  list_ascii_of_string (str_tolower_inplace s) =
  (λ c, if decide (65 <= uchar c <= 90) then to_char (uchar c + 32) else c) <$>
  list_ascii_of_string s ∧
  (∀ c, maiuscula c →
     uchar (to_char (uchar c + 32)) = uchar c + 32 ∧
     97 <= uchar (to_char (uchar c + 32)) <= 122) ∧
  String.length (str_tolower_inplace s) = String.length s ∧
  Forall (λ c, ¬ maiuscula c) (list_ascii_of_string (str_tolower_inplace s)) ∧
  (Forall (λ c, ¬ maiuscula c) (list_ascii_of_string s) → str_tolower_inplace s = s) ∧
  str_tolower_inplace (str_tolower_inplace s) = str_tolower_inplace s ∧
  (∀ c t, maiuscula c →
     str_tolower_inplace (String c t) =
     String (to_char (uchar c + 32)) (str_tolower_inplace t)).
Proof.
  split; [apply str_tolower_bytes|].
  split.
  { intros c [H1 H2]. rewrite uchar_to_char by lia. lia. }
  split.
  { induction s as [|c t IH]; simpl; [done|]. by rewrite IH. }
  split; [apply str_tolower_no_upper|].
  split; [apply str_tolower_fixed|].
  split; [apply str_tolower_fixed, str_tolower_no_upper|].
  intros c t [H1 H2]. cbn [str_tolower_inplace]. unfold tolower.
  by rewrite (proj2 (Z.leb_le _ _) H1), (proj2 (Z.leb_le _ _) H2).
Qed.

Lemma str_tolower_inplace_lowers_ascii_witness :
  str_tolower_inplace "Sra. Rosa" = "sra. rosa" ∧
  str_tolower_inplace "aB" = "ab" ∧
  str_tolower_inplace "Salão" = "salão" ∧
  str_tolower_inplace "sra. rosa" = "sra. rosa".
Proof.
  destruct (str_tolower_inplace_lowers_ascii "sra. rosa") as (_ & _ & _ & _ & H & _).
  split; [reflexivity|]. split; [reflexivity|]. split; [reflexivity|].
  apply H. by apply (bool_decide_unpack _); vm_compute.
Defined.

(** ** [hash_func] *)

Lemma hash_step_eq (h : Z) (c : ascii) :
  hash_step h c = (33 * h + uchar c) mod 2 ^ ULONG_BITS.
Proof.
  unfold hash_step. rewrite Z.shiftl_mul_pow2 by lia.
  rewrite (Zplus_mod_idemp_l (h * 2 ^ 5) h), Zplus_mod_idemp_l.
  f_equal. lia.
Qed.

Lemma djb2_mod (h h' : Z) (s : string) :
  h mod 2 ^ ULONG_BITS = h' mod 2 ^ ULONG_BITS →
  djb2 h s mod 2 ^ ULONG_BITS = djb2 h' s mod 2 ^ ULONG_BITS.
Proof.
  revert h h'. induction s as [|c t IH]; intros h h' Hh; [done|].
  cbn [djb2]. apply IH.
  rewrite (Z.add_mod (33 * h)), (Z.add_mod (33 * h')) by done.
  rewrite (Z.mul_mod 33 h), (Z.mul_mod 33 h') by done.
  by rewrite Hh.
Qed.

Lemma hash_loop_djb2 (h : Z) (s : string) :
  hash_loop h s mod 2 ^ ULONG_BITS = djb2 h s mod 2 ^ ULONG_BITS.
Proof.
  revert h. induction s as [|c t IH]; intros h; [done|].
  cbn [hash_loop djb2]. rewrite IH. apply djb2_mod.
  rewrite hash_step_eq. by rewrite Z.mod_mod.
Qed.

Lemma hash_loop_range (h : Z) (s : string) :
  0 <= h < 2 ^ ULONG_BITS → 0 <= hash_loop h s < 2 ^ ULONG_BITS.
Proof.
  revert h. induction s as [|c t IH]; intros h Hh; [done|].
  cbn [hash_loop]. apply IH. rewrite hash_step_eq.
  by apply Z.mod_pos_bound.
Qed.

Lemma hash_loop_app (h : Z) (s1 s2 : string) :
  hash_loop h (s1 +:+ s2) = hash_loop (hash_loop h s1) s2.
Proof. revert h. induction s1 as [|c t IH]; intros h; simpl; [done|]. apply IH. Qed.

(** X3. [hash_func] is the hash of Bernstein reduced to a bucket: the
    wrap-around of [unsigned long] at every round gives the same value as
    [h * 33 + c] computed without bounds from 5381 and reduced modulo 2^64
    once at the end; the result, taken modulo [HASH_SIZE], is always an
    index of the table, from 0 to 100. The hash of a concatenation is the
    loop run on the second string from the state left by the first. *)
Theorem hash_func_is_bounded_djb2 (s : string) :
  hash_func s = (djb2 5381 s mod 2 ^ 64) mod HASH_SIZE ∧
  0 <= hash_func s < HASH_SIZE ∧
  (Z.to_nat (hash_func s) < length tabela_vazia)%nat ∧
  (∀ s2, hash_func (s +:+ s2) = hash_loop (hash_loop 5381 s) s2 mod HASH_SIZE).
Proof.
  assert (∀ x, hash_func x = hash_loop 5381 x mod HASH_SIZE) as Hf.
  { intros x. unfold hash_func.
    pose proof (Z.mod_pos_bound (hash_loop 5381 x) HASH_SIZE ltac:(done)) as Hb.
    apply Z.mod_small. unfold HASH_SIZE, UINT_BITS in *. lia. }
  split.
  { rewrite Hf. f_equal.
    rewrite <- (Z.mod_small (hash_loop 5381 s) (2 ^ 64)).
    - apply hash_loop_djb2.
    - by apply (hash_loop_range 5381 s). }
  split; [apply hash_func_range|].
  split; [apply hash_func_index, length_tabela_vazia|].
  intros s2. by rewrite Hf, hash_loop_app.
Qed.

(** ** [inserirNaHash] and [encontrarSuspeito] *)

(** X4. Reading after writing, on any table of [HASH_SIZE] buckets, well
    formed or not: after [inserirNaHash(table, p, s)] the lookup of [p]
    returns [s] and the lookup of every other clue returns what it
    returned before, whether or not the two clues share a bucket. A null
    clue or a null suspect makes [inserirNaHash] do nothing, and the
    lookup of a null clue is null. *)
Theorem encontrarSuspeito_after_inserirNaHash (t : Table) (p s q : string) :
  length t = Z.to_nat HASH_SIZE →
  encontrarSuspeito (inserirNaHash t (Some p) (Some s)) (Some p) = Some s ∧
  (q ≠ p →
     encontrarSuspeito (inserirNaHash t (Some p) (Some s)) (Some q) =
     encontrarSuspeito t (Some q)) ∧
  length (inserirNaHash t (Some p) (Some s)) = length t ∧
  inserirNaHash t None (Some s) = t ∧
  inserirNaHash t (Some p) None = t ∧
  inserirNaHash t None None = t ∧
  encontrarSuspeito t None = None.
Proof.
  intros Hlen.
  split; [by rewrite encontrar_inserir, decide_True|].
  split; [intros Hne; by rewrite encontrar_inserir, decide_False|].
  split; [apply length_inserirNaHash|done].
Qed.

Lemma encontrarSuspeito_after_inserirNaHash_witness :
  let t := inserirNaHash popularTabelaHash (Some "Relógio parado") (Some "Dr. Azul") in
  length popularTabelaHash = Z.to_nat HASH_SIZE ∧
  encontrarSuspeito popularTabelaHash (Some "Relógio parado") = None ∧
  encontrarSuspeito t (Some "Relógio parado") = Some "Dr. Azul" ∧
  encontrarSuspeito t (Some "Carta rasgada") = Some "Sr. Preto".
Proof.
  intros t.
  assert (length popularTabelaHash = Z.to_nat HASH_SIZE) as Hlen by (by vm_compute).
  destruct (encontrarSuspeito_after_inserirNaHash popularTabelaHash
              "Relógio parado" "Dr. Azul" "Carta rasgada" Hlen) as (H1 & H2 & _).
  split; [exact Hlen|]. split; [by vm_compute|]. split; [exact H1|].
  unfold t. rewrite H2 by done. by vm_compute.
Defined.

Lemma length_concat_insert (t : Table) (i : nat) (chain cur : list HashEntry) :
  t !! i = Some cur →
  (length (concat (<[i:=chain]> t)) + length cur =
   length (concat t) + length chain)%nat.
Proof.
  intros Hi.
  rewrite insert_take_drop by (by eapply lookup_lt_Some).
  rewrite <- (take_drop_middle t i cur Hi) at 3.
  rewrite !concat_app, !concat_cons, !length_app. lia.
Qed.

Lemma substituir_length (cur chain : list HashEntry) (p s : string) :
  substituir cur p s = Some chain → length chain = length cur.
Proof.
  intros H. apply substituir_keys in H.
  by rewrite <- (length_fmap key chain), H, length_fmap.
Qed.

(** X5. How [inserirNaHash] changes the table of [HASH_SIZE] buckets. For
    a clue that the lookup does not find, one entry is added, at the head
    of the chain of the clue's bucket, and the table holds one entry more.
    For a clue that the lookup finds, no entry is added or removed. In
    both cases every other bucket is left as it was. *)
Theorem inserirNaHash_entries (t : Table) (p s : string) :
  length t = Z.to_nat HASH_SIZE →
  let t' := inserirNaHash t (Some p) (Some s) in
  (encontrarSuspeito t (Some p) = None →
     bucket t' (hash_func p) = mkEntry p s :: bucket t (hash_func p) ∧
     length (concat t') = S (length (concat t))) ∧
  (is_Some (encontrarSuspeito t (Some p)) →
     key <$> bucket t' (hash_func p) = key <$> bucket t (hash_func p) ∧
     length (concat t') = length (concat t)) ∧
  (∀ i : Z, Z.to_nat i ≠ Z.to_nat (hash_func p) → bucket t' i = bucket t i).
Proof.
  intros Hlen t'.
  pose proof (hash_func_index t p Hlen) as Hi.
  pose proof (bucket_lookup t (hash_func p) Hi) as Hb.
  pose proof (hash_func_range p) as Hr.
  assert (∀ chain, bucket (<[Z.to_nat (hash_func p):=chain]> t) (hash_func p) = chain)
    as Hsame.
  { intros chain. rewrite <- (Z2Nat.id (hash_func p)) at 2 by lia.
    by apply bucket_insert_eq. }
  unfold t'. simpl.
  split; [|split].
  - intros Hnone. apply substituir_None with (s := s) in Hnone. rewrite Hnone.
    split; [apply Hsame|].
    pose proof (length_concat_insert t _ (mkEntry p s :: bucket t (hash_func p)) _ Hb) as Hl.
    simpl in Hl. lia.
  - intros [old Hold].
    destruct (substituir (bucket t (hash_func p)) p s) as [chain|] eqn:E.
    + rewrite Hsame. split; [by eapply substituir_keys|].
      pose proof (length_concat_insert t _ chain _ Hb) as Hl.
      rewrite (substituir_length _ _ _ _ E) in Hl. lia.
    + apply substituir_None in E. congruence.
  - intros i Hne.
    destruct (substituir (bucket t (hash_func p)) p s); by rewrite bucket_insert_ne.
Qed.

Lemma inserirNaHash_entries_witness :
  let t := popularTabelaHash in
  length t = Z.to_nat HASH_SIZE ∧
  length (concat t) = 9%nat ∧
  length (concat (inserirNaHash t (Some "Relógio parado") (Some "Dr. Azul"))) = 10%nat ∧
  length (concat (inserirNaHash t (Some "Carta rasgada") (Some "Dr. Azul"))) = 9%nat.
Proof.
  intros t.
  assert (length t = Z.to_nat HASH_SIZE) as Hlen by (by vm_compute).
  destruct (inserirNaHash_entries t "Relógio parado" "Dr. Azul" Hlen) as (H1 & _).
  destruct (inserirNaHash_entries t "Carta rasgada" "Dr. Azul" Hlen) as (_ & H2 & _).
  destruct H1 as [_ H1]; [by vm_compute|].
  destruct H2 as [_ H2]; [by vm_compute; eexists|].
  assert (length (concat t) = 9%nat) as H9 by (by vm_compute).
  split; [exact Hlen|]. split; [exact H9|].
  split; [by rewrite H1, H9 | by rewrite H2, H9].
Defined.

(** X6. The index never holds two entries for one clue. Every table that
    the program can build, by any sequence of calls of [inserirNaHash] on
    the empty table, null arguments included, keeps its [HASH_SIZE]
    buckets, keeps every entry in the bucket of its hash and holds every
    key at most once; the entries of a clue in the whole table are the
    single entry that the lookup finds, or none when the lookup is null. *)
Theorem index_holds_each_clue_once
  (ops : list (option string * option string)) (c : string) :
  let t := foldl (λ t op, inserirNaHash t op.1 op.2) tabela_vazia ops in
  tabela_ok t ∧
  (length (entradas_de t c) ≤ 1)%nat ∧
  entradas_de t c =
  match encontrarSuspeito t (Some c) with
  | Some s => [mkEntry c s]
  | None => []
  end.
Proof.
  intros t.
  assert (tabela_ok t) as Hok.
  { unfold t. generalize tabela_ok_vazia. generalize tabela_vazia.
    induction ops as [|[[p|] [s|]] ops IH]; intros t0 H0; cbn [foldl fst snd];
      [done|apply IH..]; try done.
    by apply tabela_ok_inserir. }
  assert (entradas_de t c =
          match encontrarSuspeito t (Some c) with
          | Some s => [mkEntry c s]
          | None => []
          end) as He.
  { destruct (encontrarSuspeito t (Some c)) as [s|] eqn:E.
    - by apply entradas_de_encontrar.
    - rewrite entradas_de_bucket by done.
      apply filter_key_nil. by apply procurar_None. }
  split; [done|]. split; [|done].
  rewrite He. destruct (encontrarSuspeito t (Some c)); simpl; lia.
Qed.

Lemma substituir_mesmo (cur : list HashEntry) (p s : string) :
  procurar cur p = Some s → substituir cur p s = Some cur.
Proof.
  induction cur as [|e next IH]; simpl; [done|].
  destruct (streq (key e) p) eqn:E.
  - intros [= <-]. by destruct e.
  - intros H. by rewrite (IH H).
Qed.

(** X7. Writing what is already there changes nothing: on a table of
    [HASH_SIZE] buckets, when the lookup of a clue returns a suspect,
    [inserirNaHash] with that clue and that suspect returns the table
    unchanged. Hence a call of [inserirNaHash] repeated with the same
    arguments has no further effect. *)
Theorem inserirNaHash_same_value_is_noop (t : Table) (p s : string) :
  length t = Z.to_nat HASH_SIZE →
  (encontrarSuspeito t (Some p) = Some s → inserirNaHash t (Some p) (Some s) = t) ∧
  inserirNaHash (inserirNaHash t (Some p) (Some s)) (Some p) (Some s) =
  inserirNaHash t (Some p) (Some s).
Proof.
  intros Hlen.
  assert (∀ t0, length t0 = Z.to_nat HASH_SIZE →
            encontrarSuspeito t0 (Some p) = Some s →
            inserirNaHash t0 (Some p) (Some s) = t0) as Hnoop.
  { intros t0 Hl0 Hs. simpl in *.
    rewrite (substituir_mesmo _ _ _ Hs).
    apply list_insert_id, bucket_lookup, hash_func_index, Hl0. }
  split; [by apply Hnoop|].
  apply Hnoop; [by rewrite length_inserirNaHash|].
  by rewrite encontrar_inserir, decide_True.
Qed.

Lemma inserirNaHash_same_value_is_noop_witness :
  length popularTabelaHash = Z.to_nat HASH_SIZE ∧
  encontrarSuspeito popularTabelaHash (Some "Fibra vermelha") = Some "Sra. Rosa" ∧
  inserirNaHash popularTabelaHash (Some "Fibra vermelha") (Some "Sra. Rosa") =
  popularTabelaHash.
Proof.
  assert (length popularTabelaHash = Z.to_nat HASH_SIZE) as Hlen by (by vm_compute).
  assert (encontrarSuspeito popularTabelaHash (Some "Fibra vermelha") = Some "Sra. Rosa")
    as Hs by (by vm_compute).
  destruct (inserirNaHash_same_value_is_noop popularTabelaHash
              "Fibra vermelha" "Sra. Rosa" Hlen) as (H & _).
  split; [exact Hlen|]. split; [exact Hs|]. exact (H Hs).
Defined.

(** ** [explorarSalas] *)

Lemma navegar_destinos (name : string) (l r : Room) (input : string) (atual' : Room) :
  (navegar name l r input).1 = Continua atual' →
  atual' ≠ RoomNULL ∧ (atual' = RoomNode name l r ∨ atual' = l ∨ atual' = r).
Proof.
  intros H. split; [by eapply navegar_cursor|]. revert H.
  unfold navegar. destruct input as [|c tl]; [intros [= <-]; by left|].
  destruct (Ascii.eqb c "e" || Ascii.eqb c "E")%bool.
  { destruct l; intros [= <-]; auto. }
  destruct (Ascii.eqb c "d" || Ascii.eqb c "D")%bool.
  { destruct r; intros [= <-]; auto. }
  destruct (Ascii.eqb c "s" || Ascii.eqb c "S")%bool; [done|].
  intros [= <-]. by left.
Qed.

Lemma navegar_Sai (name : string) (l r : Room) (buf : string) :
  (navegar name l r (trim_newline buf)).1 = Sai ↔ comando_sair buf.
Proof.
  split; [|intros H; by rewrite navegar_sair].
  unfold navegar, comando_sair.
  destruct (trim_newline buf) as [|c tl]; [done|].
  destruct (Ascii.eqb c "e" || Ascii.eqb c "E")%bool; [by destruct l|].
  destruct (Ascii.eqb c "d" || Ascii.eqb c "D")%bool; [by destruct r|].
  destruct (Ascii.eqb_spec c "s") as [->|Hs]; [intros _; exists "s"%char, tl; auto|].
  destruct (Ascii.eqb_spec c "S") as [->|HS]; [intros _; exists "S"%char, tl; auto|].
  done.
Qed.

Lemma elem_of_pistas_da_mansao (m : Room) (c : string) :
  c ∈ pistas_da_mansao m ↔ ∃ name, name ∈ salas m ∧ getClueForRoom name = Some c.
Proof. unfold pistas_da_mansao. apply list_elem_of_omap. Qed.

Lemma pistas_da_mansao_sub (name : string) (l r : Room) (c : string) :
  c ∈ pistas_da_mansao l ∨ c ∈ pistas_da_mansao r →
  c ∈ pistas_da_mansao (RoomNode name l r).
Proof.
  rewrite !elem_of_pistas_da_mansao. cbn [salas].
  intros [(n & Hn & Hc)|(n & Hn & Hc)]; exists n; split; try done;
    rewrite elem_of_cons, elem_of_app; auto.
Qed.

Lemma visitar_bst (name : string) (collected : ClueNode) :
  bst collected → bst (visitar name collected).1.
Proof.
  intros Hb. rewrite visitar_ledger.
  destruct (getClueForRoom name); [by apply bst_inserir|done].
Qed.

Lemma visitar_elem_of (name : string) (collected : ClueNode) (c : string) :
  c ∈ inorder (visitar name collected).1 ↔
  c ∈ inorder collected ∨ getClueForRoom name = Some c.
Proof.
  rewrite visitar_ledger. destruct (getClueForRoom name) as [k|].
  - rewrite elem_of_inorder_inserir. split; intros [H|H]; auto.
    + right. by rewrite H.
    + left. by injection H.
  - split; [auto|]. by intros [H|H].
Qed.

Lemma explorar_loop_ledger (atual : Room) (collected : ClueNode) (ins : list string) :
  bst collected →
  let ledger := (explorar_loop atual collected ins).1.1 in
  bst ledger ∧
  (∀ c, c ∈ inorder collected → c ∈ inorder ledger) ∧
  (∀ c, c ∈ inorder ledger → c ∈ inorder collected ∨ c ∈ pistas_da_mansao atual).
Proof.
  revert atual collected.
  induction ins as [|buf rest IH]; intros [|name l r] collected Hb;
    rewrite ?explorar_loop_NULL; cbn zeta; cbn [fst]; auto.
  - rewrite explorar_loop_eof. cbn [fst].
    split; [by apply visitar_bst|]. split.
    + intros c Hc. apply visitar_elem_of. auto.
    + intros c [Hc|Hc]%visitar_elem_of; [auto|]. right.
      apply elem_of_pistas_da_mansao. exists name. split; [left|done].
  - rewrite explorar_loop_step. cbn zeta.
    pose proof (visitar_bst name collected Hb) as Hv.
    assert (∀ c, c ∈ inorder (visitar name collected).1 →
                 c ∈ inorder collected ∨ c ∈ pistas_da_mansao (RoomNode name l r)) as Hg.
    { intros c [Hc|Hc]%visitar_elem_of; [auto|]. right.
      apply elem_of_pistas_da_mansao. exists name. split; [left|done]. }
    destruct (navegar name l r (trim_newline buf)).1 as [atual'|] eqn:E; cbn [fst].
    + destruct (IH atual' _ Hv) as (H1 & H2 & H3).
      split; [done|]. split.
      * intros c Hc. apply H2, visitar_elem_of. auto.
      * intros c Hc. destruct (H3 c Hc) as [H|H]; [auto|]. right.
        apply navegar_destinos in E as [_ [-> | [-> | ->]]]; [done| |];
          apply pistas_da_mansao_sub; auto.
    + split; [done|]. split; [|done].
      intros c Hc. apply visitar_elem_of. auto.
Qed.

(** X8. What exploration does to the ledger, from any room, with any
    ledger that is a search tree and on any input: the ledger stays a
    search tree, no clue is ever removed from it, and every clue it gains
    is the clue of a room of the mansion at or below the starting room. *)
Theorem exploration_keeps_and_grows_ledger
  (atual : Room) (collected : ClueNode) (ins : list string) :
  bst collected →
  let ledger := (explorar_loop atual collected ins).1.1 in
  bst ledger ∧
  (∀ c, c ∈ inorder collected → c ∈ inorder ledger) ∧
  (∀ c, c ∈ inorder ledger → c ∈ inorder collected ∨ c ∈ pistas_da_mansao atual).
Proof. apply explorar_loop_ledger. Qed.

Lemma exploration_keeps_and_grows_ledger_witness :
  let ledger := (explorar_loop construirMansao
                   (inserirPistas ["Relógio parado"] ClueNULL)
                   [linha "d"; linha "e"; linha "x"]).1.1 in
  bst (inserirPistas ["Relógio parado"] ClueNULL) ∧
  bst ledger ∧
  inorder ledger =
  ["Faca com impressões"; "Frascos vazios"; "Pegadas lamacentas"; "Relógio parado"].
Proof.
  intros ledger.
  assert (bst (inserirPistas ["Relógio parado"] ClueNULL)) as Hb
    by (apply (bool_decide_unpack _); by vm_compute).
  destruct (exploration_keeps_and_grows_ledger construirMansao _
              [linha "d"; linha "e"; linha "x"] Hb) as (H & _).
  split; [exact Hb|]. split; [exact H|]. by vm_compute.
Defined.

(** X9. What exploration reads. From a room, on an input whose first
    buffers are not the stop command and are followed by a stop command,
    the loop reads up to and including the stop command and leaves every
    buffer after it unread, for the prompt of the judgment. With no stop
    command at all it reads the whole input. In every case what is left
    is a suffix of the input. *)
Theorem exploration_reads_up_to_stop
  (atual : Room) (collected : ClueNode) (ins : list string) :
  atual ≠ RoomNULL →
  Forall (λ b, ¬ comando_sair b) ins →
  (∀ buf rest, comando_sair buf →
     (explorar_loop atual collected (ins ++ buf :: rest)).1.2 = rest) ∧
  (explorar_loop atual collected ins).1.2 = [] ∧
  (∀ todo : list string,
     ∃ k, (explorar_loop atual collected todo).1.2 = drop k todo).
Proof.
  intros Hr Hins. split; [|split].
  - intros buf rest Hs. revert atual collected Hr.
    induction Hins as [|b ins Hb Hins IH]; intros [|name l r] collected Hr; try done.
    + simpl app. rewrite explorar_loop_step. cbn zeta.
      by rewrite navegar_sair.
    + simpl app. rewrite explorar_loop_step. cbn zeta.
      destruct (navegar name l r (trim_newline b)).1 as [atual'|] eqn:E; cbn [fst snd].
      * apply IH. by apply navegar_destinos in E as [? _].
      * by apply navegar_Sai in E.
  - revert atual collected Hr.
    induction Hins as [|b ins Hb Hins IH]; intros [|name l r] collected Hr; try done.
    rewrite explorar_loop_step. cbn zeta.
    destruct (navegar name l r (trim_newline b)).1 as [atual'|] eqn:E; cbn [fst snd].
    + apply IH. by apply navegar_destinos in E as [? _].
    + by apply navegar_Sai in E.
  - intros todo. clear Hr Hins. revert atual collected.
    induction todo as [|b todo IH]; intros [|name l r] collected.
    + by exists 0%nat.
    + exists 0%nat. by rewrite explorar_loop_eof.
    + exists 0%nat. by rewrite explorar_loop_NULL.
    + rewrite explorar_loop_step. cbn zeta.
      destruct (navegar name l r (trim_newline b)).1 as [atual'|]; cbn [fst snd].
      * destruct (IH atual' (visitar name collected).1) as [k Hk].
        exists (S k). by rewrite Hk.
      * by exists 1%nat.
Qed.

Lemma exploration_reads_up_to_stop_witness :
  construirMansao ≠ RoomNULL ∧
  Forall (λ b, ¬ comando_sair b) [linha "e"; linha ""; linha "x"] ∧
  (explorar_loop construirMansao ClueNULL
     ([linha "e"; linha ""; linha "x"] ++ linha "s" :: [linha "Sra. Rosa"])).1.2 =
  [linha "Sra. Rosa"].
Proof.
  assert (construirMansao ≠ RoomNULL) as Hr by done.
  assert (Forall (λ b, ¬ comando_sair b) [linha "e"; linha ""; linha "x"]) as Hf.
  { repeat constructor; intros (c & tl & H & [-> | ->]); by vm_compute in H. }
  assert (comando_sair (linha "s")) as Hs.
  { exists "s"%char, "". split; [reflexivity|by left]. }
  destruct (exploration_reads_up_to_stop construirMansao ClueNULL _ Hr Hf) as (H & _).
  split; [exact Hr|]. split; [exact Hf|]. exact (H _ _ Hs).
Defined.

(** X10. Staying in a room. On an empty line (a lone line feed, or an
    empty buffer) the loop starts the next round in the same room: it
    prints nothing between the prompt and the room's name. A round in a
    room announces the room and its clue in the same words whether the
    clue is new or already in the ledger, and a second visit leaves the
    ledger as the first one left it. *)
Theorem staying_in_a_room_revisits_it
  (name : string) (l r : Room) (collected : ClueNode) :
  (∀ buf rest, trim_newline buf = "" →
     explorar_loop (RoomNode name l r) collected (buf :: rest) =
     let v := visitar name collected in
     let res := explorar_loop (RoomNode name l r) v.1 rest in
     (res.1, v.2 ++ res.2)) ∧
  (∀ other : ClueNode, (visitar name other).2 = (visitar name collected).2) ∧
  (visitar name (visitar name collected).1).1 = (visitar name collected).1 ∧
  (∀ clue, adicionarPista collected (Some clue) =
           (inserirPista collected (Some clue),
            [Printf (MsgPistaEncontrada clue); Printf MsgPistaAdicionada])).
Proof.
  split; [|split; [|split]].
  - intros buf rest Hb. rewrite explorar_loop_step, Hb. reflexivity.
  - intros other. unfold visitar. by destruct (getClueForRoom name).
  - rewrite !visitar_ledger. destruct (getClueForRoom name); [|done].
    apply inserirPista_idem.
  - done.
Qed.

Lemma staying_in_a_room_revisits_it_witness :
  trim_newline (linha "") = "" ∧
  (explorar_loop construirMansao ClueNULL [linha ""; linha ""]).1.1 =
  (explorar_loop construirMansao ClueNULL []).1.1.
Proof.
  destruct (staying_in_a_room_revisits_it "Entrada"
              (RoomNode "Salão"
                 (RoomNode "Biblioteca" (RoomNode "Sótão" RoomNULL RoomNULL) RoomNULL)
                 (RoomNode "Escritório" RoomNULL (RoomNode "Porão" RoomNULL RoomNULL)))
              (RoomNode "Cozinha" (RoomNode "Quarto" RoomNULL RoomNULL)
                 (RoomNode "Varanda" RoomNULL RoomNULL))
              ClueNULL) as (H & _).
  split; [reflexivity|].
  change construirMansao with
    (RoomNode "Entrada"
       (RoomNode "Salão"
          (RoomNode "Biblioteca" (RoomNode "Sótão" RoomNULL RoomNULL) RoomNULL)
          (RoomNode "Escritório" RoomNULL (RoomNode "Porão" RoomNULL RoomNULL)))
       (RoomNode "Cozinha" (RoomNode "Quarto" RoomNULL RoomNULL)
          (RoomNode "Varanda" RoomNULL RoomNULL))).
  rewrite (H (linha "") [linha ""] eq_refl). by vm_compute.
Defined.

(** ** The traces of [explorarSalas] and of [main] *)

Lemma visitar_trace_exploracao (name : string) (collected : ClueNode) :
  Forall evento_exploracao (visitar name collected).2.
Proof.
  unfold visitar. destruct (getClueForRoom name); simpl; by repeat constructor.
Qed.

Lemma navegar_trace_exploracao (name : string) (l r : Room) (input : string) :
  Forall evento_exploracao (navegar name l r input).2.
Proof.
  unfold navegar. destruct input as [|c tl]; [constructor|].
  destruct (Ascii.eqb c "e" || Ascii.eqb c "E")%bool.
  { destruct l; simpl; by repeat constructor. }
  destruct (Ascii.eqb c "d" || Ascii.eqb c "D")%bool.
  { destruct r; simpl; by repeat constructor. }
  destruct (Ascii.eqb c "s" || Ascii.eqb c "S")%bool; simpl; by repeat constructor.
Qed.

Lemma explorar_loop_trace_exploracao (atual : Room) (collected : ClueNode)
  (ins : list string) :
  Forall evento_exploracao (explorar_loop atual collected ins).2.
Proof.
  revert atual collected.
  induction ins as [|buf rest IH]; intros [|name l r] collected;
    rewrite ?explorar_loop_NULL; try by constructor.
  - rewrite explorar_loop_eof. apply visitar_trace_exploracao.
  - rewrite explorar_loop_step. cbn zeta.
    pose proof (visitar_trace_exploracao name collected) as Hv.
    pose proof (navegar_trace_exploracao name l r (trim_newline buf)) as Hn.
    destruct (navegar name l r (trim_newline buf)).1; cbn [snd];
      rewrite ?Forall_app; auto.
Qed.

Lemma explorar_loop_sem_pistas (atual : Room) (collected : ClueNode)
  (ins : list string) :
  Forall (λ name, is_Some (getClueForRoom name)) (salas atual) →
  Forall (λ e, e ≠ Printf MsgSemPistas) (explorar_loop atual collected ins).2.
Proof.
  revert atual collected.
  assert (∀ name collected, is_Some (getClueForRoom name) →
            Forall (λ e, e ≠ Printf MsgSemPistas) (visitar name collected).2) as Hv.
  { intros name collected [c Hc]. unfold visitar. rewrite Hc.
    simpl. by repeat constructor. }
  assert (∀ name l r input,
            Forall (λ e, e ≠ Printf MsgSemPistas) (navegar name l r input).2) as Hn.
  { intros name l r input. unfold navegar. destruct input as [|c tl]; [constructor|].
    destruct (Ascii.eqb c "e" || Ascii.eqb c "E")%bool.
    { destruct l; simpl; by repeat constructor. }
    destruct (Ascii.eqb c "d" || Ascii.eqb c "D")%bool.
    { destruct r; simpl; by repeat constructor. }
    destruct (Ascii.eqb c "s" || Ascii.eqb c "S")%bool; simpl; by repeat constructor. }
  induction ins as [|buf rest IH]; intros [|name l r] collected Hs;
    rewrite ?explorar_loop_NULL; try by constructor.
  - rewrite explorar_loop_eof. apply Hv. by apply Forall_cons in Hs as [? _].
  - rewrite explorar_loop_step. cbn zeta.
    cbn [salas] in Hs. apply Forall_cons in Hs as [Hname Hs].
    apply Forall_app in Hs as [Hl Hr].
    destruct (navegar name l r (trim_newline buf)).1 as [atual'|] eqn:E; cbn [snd];
      rewrite ?Forall_app; repeat split; auto.
    apply IH. apply navegar_destinos in E as [_ [-> | [-> | ->]]]; [|done|done].
    cbn [salas]. apply Forall_cons. split; [done|]. by apply Forall_app.
Qed.

Lemma main_trace (ins : list string) :
  (main ins).2 =
  (explorarSalas (sessao_inicial ins)).2 ++
  (verificarSuspeitoFinal (explorarSalas (sessao_inicial ins)).1).2 ++
  [Printf MsgObrigado].
Proof. unfold main, sessao_inicial. rewrite !W_bind_snd. by simpl. Qed.

Lemma explorarSalas_trace (st : Sessao) :
  ∃ tr, (explorarSalas st).2 =
        Printf MsgInicioExploracao :: tr ++ [Printf MsgFimExploracao] ∧
        Forall evento_exploracao tr.
Proof.
  rewrite explorarSalas_eq. cbn zeta. cbn [snd].
  eexists. split; [done|]. apply explorar_loop_trace_exploracao.
Qed.

(** X11. [explorarSalas] prints its banner first and its closing line
    last, whatever the input, and between them only the messages of the
    exploration; it never calls [encontrarSuspeito] (the table it is given
    is not consulted), never prints a count or a verdict, and leaves the
    mansion and the table as they were. *)
Theorem exploration_only_explores (st : Sessao) :
  let res := explorarSalas st in
  (∃ tr, res.2 = Printf MsgInicioExploracao :: tr ++ [Printf MsgFimExploracao] ∧
         Forall evento_exploracao tr) ∧
  (∀ c, Consulta c ∉ res.2) ∧
  (∀ e, e ∈ res.2 → veredito_de [e] = None) ∧
  mansao res.1 = mansao st ∧ table res.1 = table st.
Proof.
  intros res. unfold res.
  destruct (explorarSalas_trace st) as (tr & Htr & Hf).
  split; [eauto|]. rewrite Htr. rewrite Forall_forall in Hf.
  split; [|split].
  - intros c. rewrite elem_of_cons, elem_of_app, list_elem_of_singleton.
    intros [H|[H|H]]; try done. by apply Hf in H.
  - intros e. rewrite elem_of_cons, elem_of_app, list_elem_of_singleton.
    intros [-> | [H | ->]]; try done. apply Hf in H.
    by destruct e as [[]|].
  - by rewrite explorarSalas_eq.
Qed.

Lemma verificar_nunca_sem_pistas (m : Room) (t : Table) (root : ClueNode)
  (ins : list string) :
  root ≠ ClueNULL →
  let tr := (verificarSuspeitoFinal (mkSessao m t root ins)).2 in
  Forall (λ e, e ≠ Printf MsgNenhumaPista) tr ∧ veredito_de tr ≠ Some NO_EVIDENCE.
Proof.
  intros Hr.
  assert (∀ tl, Forall (λ e, e ≠ Printf MsgNenhumaPista) tl →
                Forall (λ e, e ≠ Printf MsgNenhumaPista) (preambulo root ++ tl)) as Hpre.
  { intros tl Htl. unfold preambulo. apply Forall_app. split; [|done].
    apply Forall_cons. split; [done|]. apply Forall_app. split.
    - apply Forall_fmap, Forall_forall. by intros x _.
    - by repeat constructor. }
  destruct ins as [|buf rest]; cbn zeta.
  { rewrite verificar_eof by done. cbn [snd]. split.
    - rewrite <- (app_nil_r (preambulo root)). by apply Hpre.
    - by rewrite veredito_de_preambulo. }
  destruct (decide (trim_newline buf = "")) as [Hb|Hb].
  - rewrite verificar_vazio by done. cbn [snd]. split.
    + apply Hpre. by repeat constructor.
    + unfold veredito_de. by rewrite last_snoc.
  - rewrite verificar_acusacao by done. cbn [snd]. split.
    + apply Hpre, Forall_app. split.
      * apply Forall_fmap, Forall_forall. by intros x _.
      * repeat constructor; try done. by destruct (decide _).
    + rewrite app_assoc, veredito_de_acusacao. by destruct (decide _).
Qed.

(** X12. A run of the program never ends with NO_EVIDENCE. The clue of
    the entrance is collected before the first buffer is read, so for
    every input, the empty one included, the ledger that [main] hands to
    the judgment holds "Pegadas lamacentas" and is not empty; the branch
    of [verificarSuspeitoFinal] for an empty ledger is never taken and its
    message is never printed. *)
Theorem main_always_has_evidence (ins : list string) :
  let st := (explorarSalas (sessao_inicial ins)).1 in
  "Pegadas lamacentas" ∈ inorder (collected st) ∧
  collected st ≠ ClueNULL ∧
  veredito_de (verificarSuspeitoFinal st).2 ≠ Some NO_EVIDENCE ∧
  (Printf MsgNenhumaPista ∉ (main ins).2).
Proof.
  intros st.
  assert ("Pegadas lamacentas" ∈ inorder (collected st)) as Hin.
  { unfold st. rewrite explorarSalas_eq. cbn zeta. cbn [fst collected].
    unfold sessao_inicial. cbn [mansao collected stdin].
    change construirMansao with
      (RoomNode "Entrada"
         (RoomNode "Salão"
            (RoomNode "Biblioteca" (RoomNode "Sótão" RoomNULL RoomNULL) RoomNULL)
            (RoomNode "Escritório" RoomNULL (RoomNode "Porão" RoomNULL RoomNULL)))
         (RoomNode "Cozinha" (RoomNode "Quarto" RoomNULL RoomNULL)
            (RoomNode "Varanda" RoomNULL RoomNULL))).
    destruct ins as [|buf rest].
    - rewrite explorar_loop_eof. cbn [fst]. by apply list_elem_of_singleton.
    - rewrite explorar_loop_step. cbn zeta.
      set (v := visitar "Entrada" ClueNULL).
      assert (bst v.1) as Hb by (by apply visitar_bst).
      assert ("Pegadas lamacentas" ∈ inorder v.1) as Hv
        by (by apply list_elem_of_singleton).
      destruct (navegar _ _ _ _).1 as [atual'|]; cbn [fst]; [|done].
      by apply (explorar_loop_ledger atual' v.1 rest Hb). }
  assert (collected st ≠ ClueNULL) as Hr.
  { intros H. rewrite H in Hin. by apply elem_of_nil in Hin. }
  destruct st as [m t root rest] eqn:Est. cbn [collected] in *.
  destruct (verificar_nunca_sem_pistas m t root rest Hr) as [Hf Hv].
  split; [done|]. split; [done|]. split; [done|].
  rewrite main_trace. fold st. rewrite Est, !elem_of_app.
  intros [H|[H|H]].
  - destruct (explorarSalas_trace (sessao_inicial ins)) as (tr & Htr & Hex).
    rewrite Htr, elem_of_cons, elem_of_app, list_elem_of_singleton in H.
    destruct H as [H|[H|H]]; [discriminate H| |discriminate H].
    rewrite Forall_forall in Hex. exact (Hex _ H).
  - rewrite Forall_forall in Hf. exact (Hf _ H eq_refl).
  - apply list_elem_of_singleton in H. discriminate H.
Qed.

(** ** The room directory and the mansion *)

Lemma getClueForRoom_inv (name c : string) :
  getClueForRoom name = Some c → (name, c) ∈ pistas_por_sala.
Proof.
  unfold getClueForRoom, pistas_por_sala.
  destruct (streq name "Entrada") eqn:E;
    [apply streq_true in E as ->; intros [= <-]; rewrite !elem_of_cons; tauto|].
  destruct (streq name "Salão") eqn:E1;
    [apply streq_true in E1 as ->; intros [= <-]; rewrite !elem_of_cons; tauto|].
  destruct (streq name "Cozinha") eqn:E2;
    [apply streq_true in E2 as ->; intros [= <-]; rewrite !elem_of_cons; tauto|].
  destruct (streq name "Biblioteca") eqn:E3;
    [apply streq_true in E3 as ->; intros [= <-]; rewrite !elem_of_cons; tauto|].
  destruct (streq name "Escritório") eqn:E4;
    [apply streq_true in E4 as ->; intros [= <-]; rewrite !elem_of_cons; tauto|].
  destruct (streq name "Quarto") eqn:E5;
    [apply streq_true in E5 as ->; intros [= <-]; rewrite !elem_of_cons; tauto|].
  destruct (streq name "Varanda") eqn:E6;
    [apply streq_true in E6 as ->; intros [= <-]; rewrite !elem_of_cons; tauto|].
  destruct (streq name "Sótão") eqn:E7;
    [apply streq_true in E7 as ->; intros [= <-]; rewrite !elem_of_cons; tauto|].
  destruct (streq name "Porão") eqn:E8;
    [apply streq_true in E8 as ->; intros [= <-]; rewrite !elem_of_cons; tauto|].
  intros [=].
Qed.

Lemma pistas_por_sala_getClue (name c : string) :
  (name, c) ∈ pistas_por_sala → getClueForRoom name = Some c.
Proof.
  unfold pistas_por_sala. rewrite !elem_of_cons, elem_of_nil.
  intros H. repeat (destruct H as [[= -> ->]|H]; [by vm_compute|]). destruct H.
Qed.

Lemma pistas_por_sala_inj (n1 n2 c : string) :
  (n1, c) ∈ pistas_por_sala → (n2, c) ∈ pistas_por_sala → n1 = n2.
Proof.
  assert (∀ n, (n, c) ∈ pistas_por_sala →
            fst <$> List.find (λ p, String.eqb p.2 c) pistas_por_sala = Some n) as Hg.
  { intros n. unfold pistas_por_sala. rewrite !elem_of_cons, elem_of_nil.
    intros H. repeat (destruct H as [[= -> ->]|H]; [by vm_compute|]). destruct H. }
  intros H1 H2. apply Hg in H1, H2. congruence.
Qed.

Lemma verificar_trace_julgamento (st : Sessao) :
  Forall evento_julgamento (verificarSuspeitoFinal st).2.
Proof.
  destruct st as [m t root ins].
  destruct root as [|k l r]; [rewrite verificar_sem_pistas; by repeat constructor|].
  assert (∀ tl, Forall evento_julgamento tl →
                Forall evento_julgamento (preambulo (ClueTree k l r) ++ tl)) as Hpre.
  { intros tl Htl. unfold preambulo. apply Forall_app. split; [|done].
    apply Forall_cons. split; [done|]. apply Forall_app. split.
    - apply Forall_fmap, Forall_forall. by intros x _.
    - by repeat constructor. }
  destruct ins as [|buf rest].
  { rewrite verificar_eof by done. cbn [snd].
    rewrite <- (app_nil_r (preambulo _)). by apply Hpre. }
  destruct (decide (trim_newline buf = "")) as [Hb|Hb].
  - rewrite verificar_vazio by done. cbn [snd]. apply Hpre. by repeat constructor.
  - rewrite verificar_acusacao by done. cbn [snd]. apply Hpre, Forall_app. split.
    + apply Forall_fmap, Forall_forall. by intros x _.
    + repeat constructor; try done. by destruct (decide _).
Qed.

(** X13. The chain of tests of [explorarSalas] is a directory: a room has
    a clue exactly when its name, compared byte for byte, is one of the
    nine listed, and the clue is the one listed with it; no clue belongs
    to two rooms. The nine rooms that [construirMansao] builds have nine
    different names and each has a clue, so that no run of the program
    ever prints that a room has no clue. *)
Theorem room_directory_covers_mansion :
  (∀ name c, getClueForRoom name = Some c ↔ (name, c) ∈ pistas_por_sala) ∧
  (∀ n1 n2 c, getClueForRoom n1 = Some c → getClueForRoom n2 = Some c → n1 = n2) ∧
  salas construirMansao ≡ₚ pistas_por_sala.*1 ∧
  NoDup (salas construirMansao) ∧
  (∀ ins : list string, Printf MsgSemPistas ∉ (main ins).2).
Proof.
  split; [intros name c; split; [apply getClueForRoom_inv|apply pistas_por_sala_getClue]|].
  split.
  { intros n1 n2 c H1 H2. apply (pistas_por_sala_inj n1 n2 c); by apply getClueForRoom_inv. }
  assert (salas construirMansao ≡ₚ pistas_por_sala.*1) as Hp.
  { apply (bool_decide_unpack _). by vm_compute. }
  assert (NoDup (salas construirMansao)) as Hnd.
  { apply (bool_decide_unpack _). by vm_compute. }
  split; [done|]. split; [done|].
  intros ins. rewrite main_trace, !elem_of_app. intros [H|[H|H]].
  - revert H. rewrite explorarSalas_eq. cbn zeta. cbn [snd].
    rewrite elem_of_cons, elem_of_app, list_elem_of_singleton.
    intros [H|[H|H]]; [discriminate H| |discriminate H].
    assert (Forall (λ name, is_Some (getClueForRoom name)) (salas construirMansao))
      as Hall by (clear; apply (bool_decide_unpack _); by vm_compute).
    pose proof (explorar_loop_sem_pistas construirMansao ClueNULL ins Hall) as Hf.
    rewrite Forall_forall in Hf. exact (Hf _ H eq_refl).
  - pose proof (verificar_trace_julgamento (explorarSalas (sessao_inicial ins)).1) as Hf.
    rewrite Forall_forall in Hf. exact (Hf _ H).
  - apply list_elem_of_singleton in H. discriminate H.
Qed.

Lemma room_directory_covers_mansion_witness :
  getClueForRoom "Varanda" = Some "Fibra vermelha" ∧
  getClueForRoom "varanda" = None ∧
  ("Varanda", "Fibra vermelha") ∈ pistas_por_sala.
Proof.
  destruct room_directory_covers_mansion as (H & _).
  split; [reflexivity|]. split; [reflexivity|].
  by apply H.
Defined.

(** ** The tally and the verdict *)

(** X14. The tally is never negative and never more than the number of
    clues of the ledger. Hence a ledger with fewer than two clues never
    gives SUPPORTED, whoever is accused and whatever the index holds. *)
Theorem few_clues_never_supported :
  (∀ (root : ClueNode) (t : Table) (accused : string),
     0 <= (count_clues_for_suspect root t accused).1 <=
     Z.of_nat (length (inorder root))) ∧
  (∀ st : Sessao,
     (length (inorder (collected st)) < 2)%nat →
     veredito_de (verificarSuspeitoFinal st).2 ≠ Some SUPPORTED).
Proof.
  split; [apply count_clues_bounds|].
  intros [m t root ins]. cbn [collected]. intros Hlen.
  destruct root as [|k l r]; [by rewrite verificar_sem_pistas|].
  destruct ins as [|buf rest].
  { rewrite verificar_eof by done. cbn [snd]. by rewrite veredito_de_preambulo. }
  destruct (decide (trim_newline buf = "")) as [Hb|Hb].
  - rewrite verificar_vazio by done. cbn [snd]. unfold veredito_de. by rewrite last_snoc.
  - rewrite verificar_acusacao by done. cbn [snd].
    rewrite app_assoc, veredito_de_acusacao.
    pose proof (length_filter
                  (λ c, encontrarSuspeito t (Some c) = Some (trim_newline buf))
                  (inorder (ClueTree k l r))) as Hf.
    unfold apontam_para. rewrite decide_False; [done|lia].
Qed.

Lemma few_clues_never_supported_witness :
  let st := (explorarSalas (sessao_inicial [linha "s"; linha "Sr. Verde"])).1 in
  (length (inorder (collected st)) < 2)%nat ∧
  veredito_de (verificarSuspeitoFinal st).2 ≠ Some SUPPORTED ∧
  veredito_de (verificarSuspeitoFinal st).2 = Some WEAK.
Proof.
  intros st.
  assert (length (inorder (collected st)) < 2)%nat as Hlen by (vm_compute; lia).
  destruct few_clues_never_supported as (_ & H).
  split; [exact Hlen|]. split; [exact (H st Hlen)|]. by vm_compute.
Defined.

Lemma inorder_inserir_shape (root : ClueNode) (c : string) :
  ∃ xs ys, inorder root = xs ++ ys ∧
    (inorder (inserirPista root (Some c)) = xs ++ ys ∨
     inorder (inserirPista root (Some c)) = xs ++ c :: ys).
Proof.
  induction root as [|k l IHl r IHr]; simpl.
  - exists [], []. auto.
  - destruct (strcmp c k); simpl.
    + exists [], (inorder l ++ k :: inorder r). auto.
    + destruct IHl as (xs & ys & E & [E'|E']); exists xs, (ys ++ k :: inorder r);
        rewrite E, E', <- !app_assoc; auto.
    + destruct IHr as (xs & ys & E & [E'|E']); exists (inorder l ++ k :: xs), ys;
        rewrite E, E', <- !app_assoc; auto.
Qed.

(** X15. Collecting one more clue never lowers the tally for any accused
    and raises it by one at most, on any ledger, search tree or not. So an
    accusation that two clues support stays supported whatever else is
    collected. *)
Theorem more_clues_never_weaken (root : ClueNode) (t : Table) (accused clue : string) :
  let n := (count_clues_for_suspect root t accused).1 in
  let n' := (count_clues_for_suspect (inserirPista root (Some clue)) t accused).1 in
  n <= n' <= n + 1 ∧ (2 <= n → 2 <= n').
Proof.
  intros n n'. unfold n, n'. rewrite !count_clues_eq. cbn [fst]. unfold apontam_para.
  destruct (inorder_inserir_shape root clue) as (xs & ys & -> & [-> | ->]);
    rewrite !filter_app, ?filter_cons, !length_app.
  - lia.
  - destruct (decide _); simpl; lia.
Qed.

Lemma elem_of_inorder_inserirPistas (clues : list string) (root : ClueNode) (x : string) :
  x ∈ inorder (inserirPistas clues root) ↔ x ∈ clues ∨ x ∈ inorder root.
Proof.
  unfold inserirPistas. revert root.
  induction clues as [|c clues IH]; intros root; cbn [foldl].
  - rewrite elem_of_nil. tauto.
  - rewrite IH, elem_of_inorder_inserir, elem_of_cons. tauto.
Qed.

Lemma sorted_lt_unique (xs ys : list string) :
  StronglySorted str_lt xs → StronglySorted str_lt ys →
  (∀ x, x ∈ xs ↔ x ∈ ys) → xs = ys.
Proof.
  intros H1 H2 Heq.
  apply (StronglySorted_unique_strong str_lt); [|done|done|].
  - intros x1 x2 _ _ Ha Hb. unfold str_lt in *.
    rewrite (strcmp_antisym x1 x2), Ha in Hb. done.
  - apply NoDup_Permutation; [by apply sorted_lt_NoDup..|done].
Qed.

(** X16. The ledger forgets the route. Two sequences of insertions into
    the empty ledger that insert the same set of clues, in any order and
    with any repetitions, may build trees of different shapes, but
    [listarPistas] prints the same list for both and
    [count_clues_for_suspect] returns the same tally, with the same
    lookups in the same order, for every index and accused. *)
Theorem ledger_listing_ignores_order (clues1 clues2 : list string) :
  (∀ x, x ∈ clues1 ↔ x ∈ clues2) →
  let r1 := inserirPistas clues1 ClueNULL in
  let r2 := inserirPistas clues2 ClueNULL in
  inorder r1 = inorder r2 ∧
  listarPistas r1 = listarPistas r2 ∧
  (∀ (t : Table) (accused : string),
     count_clues_for_suspect r1 t accused = count_clues_for_suspect r2 t accused).
Proof.
  intros Heq r1 r2.
  assert (inorder r1 = inorder r2) as Hin.
  { apply sorted_lt_unique.
    - apply bst_sorted. by apply bst_inserirPistas.
    - apply bst_sorted. by apply bst_inserirPistas.
    - intros x. unfold r1, r2. rewrite !elem_of_inorder_inserirPistas.
      rewrite Heq. tauto. }
  split; [done|]. split.
  - by rewrite !listarPistas_inorder, Hin.
  - intros t accused. by rewrite !count_clues_eq, Hin.
Qed.

Lemma ledger_listing_ignores_order_witness :
  let r1 := inserirPistas ["Vidro quebrado"; "Carta rasgada"; "Pegada pequena"] ClueNULL in
  let r2 := inserirPistas ["Carta rasgada"; "Pegada pequena"; "Carta rasgada";
                           "Vidro quebrado"] ClueNULL in
  r1 ≠ r2 ∧ listarPistas r1 = listarPistas r2.
Proof.
  intros r1 r2. split; [by vm_compute|].
  apply (ledger_listing_ignores_order
           ["Vidro quebrado"; "Carta rasgada"; "Pegada pequena"]
           ["Carta rasgada"; "Pegada pequena"; "Carta rasgada"; "Vidro quebrado"]).
  intros x. rewrite !elem_of_cons, !elem_of_nil. tauto.
Defined.

Lemma elem_of_concat (t : Table) (e : HashEntry) :
  e ∈ concat t ↔ ∃ chain, chain ∈ t ∧ e ∈ chain.
Proof.
  rewrite list_elem_of_In, in_concat. split.
  - intros (chain & H1 & H2). exists chain. by rewrite !list_elem_of_In.
  - intros (chain & H1 & H2). exists chain. by rewrite <- !list_elem_of_In.
Qed.

Lemma procurar_Some_elem (cur : list HashEntry) (p s : string) :
  procurar cur p = Some s → mkEntry p s ∈ cur.
Proof.
  induction cur as [|e next IH]; simpl; [done|].
  destruct (streq (key e) p) eqn:E.
  - apply streq_true in E. intros [= <-]. destruct e; simpl in *. subst. left.
  - intros H. right. auto.
Qed.

Lemma encontrar_Some_elem (t : Table) (p s : string) :
  encontrarSuspeito t (Some p) = Some s → mkEntry p s ∈ concat t.
Proof.
  simpl. unfold bucket. intros H.
  destruct (t !! Z.to_nat (hash_func p)) as [chain|] eqn:E; [|done].
  apply elem_of_concat. exists chain. split.
  - apply list_elem_of_lookup. eauto.
  - by apply procurar_Some_elem.
Qed.

(** X17. The tally for an accused never exceeds the number of entries of
    the index that name that suspect, on a ledger without repeated clues
    and on any table. So when the index names a suspect in fewer than two
    entries, no ledger that is a search tree gives SUPPORTED against that
    suspect. *)
Theorem count_bounded_by_index_entries (root : ClueNode) (t : Table) (accused : string) :
  NoDup (inorder root) →
  (count_clues_for_suspect root t accused).1 <=
  Z.of_nat (length (entradas_do_suspeito t accused)) ∧
  (∀ (m : Room) (buf : string) (rest : list string),
     trim_newline buf = accused →
     (length (entradas_do_suspeito t accused) < 2)%nat →
     veredito_de (verificarSuspeitoFinal (mkSessao m t root (buf :: rest))).2 ≠
     Some SUPPORTED).
Proof.
  intros Hnd.
  assert ((count_clues_for_suspect root t accused).1 <=
          Z.of_nat (length (entradas_do_suspeito t accused))) as Hle.
  { rewrite count_clues_eq. cbn [fst].
    rewrite <- (length_fmap (λ c, mkEntry c accused)).
    apply inj_le, submseteq_length, NoDup_submseteq.
    - apply NoDup_fmap_2; [by intros c1 c2 [= ->]|].
      unfold apontam_para. by apply NoDup_filter.
    - intros e (c & -> & Hc)%list_elem_of_fmap.
      unfold apontam_para in Hc. apply list_elem_of_filter in Hc as [Hc _].
      unfold entradas_do_suspeito. apply list_elem_of_filter. split; [done|].
      by apply encontrar_Some_elem. }
  split; [done|].
  intros m buf rest Hb Hlen.
  destruct root as [|k l r]; [by rewrite verificar_sem_pistas|].
  destruct (decide (trim_newline buf = "")) as [He|He].
  - rewrite verificar_vazio by done. cbn [snd]. unfold veredito_de. by rewrite last_snoc.
  - rewrite verificar_acusacao by done. cbn [snd].
    rewrite app_assoc, veredito_de_acusacao.
    rewrite count_clues_eq in Hle. cbn [fst] in Hle. rewrite Hb.
    rewrite decide_False; [done|lia].
Qed.

Lemma count_bounded_by_index_entries_witness :
  let root := inserirPistas (pistas_por_sala.*2) ClueNULL in
  NoDup (inorder root) ∧
  (length (entradas_do_suspeito popularTabelaHash "Dr. Azul") < 2)%nat ∧
  veredito_de (verificarSuspeitoFinal
                 (mkSessao construirMansao popularTabelaHash root [linha "Dr. Azul"])).2 ≠
  Some SUPPORTED.
Proof.
  intros root.
  assert (NoDup (inorder root)) as Hnd by (apply (bool_decide_unpack _); by vm_compute).
  assert (length (entradas_do_suspeito popularTabelaHash "Dr. Azul") < 2)%nat as Hlen
    by (vm_compute; lia).
  destruct (count_bounded_by_index_entries root popularTabelaHash "Dr. Azul" Hnd)
    as (_ & H).
  split; [exact Hnd|]. split; [exact Hlen|].
  exact (H construirMansao (linha "Dr. Azul") [] eq_refl Hlen).
Defined.

(** X18. The order of two writes for different clues does not matter to
    any lookup: on a table of [HASH_SIZE] buckets, writing the first clue
    and then the second, or the second and then the first, gives tables in
    which every clue is looked up with the same result. The tables
    themselves can differ, since a new entry goes to the head of its
    chain: they do when the two clues are new and share a bucket. *)
Theorem inserirNaHash_order_irrelevant (t : Table) (p1 p2 s1 s2 : string) :
  length t = Z.to_nat HASH_SIZE →
  p1 ≠ p2 →
  let t12 := inserirNaHash (inserirNaHash t (Some p1) (Some s1)) (Some p2) (Some s2) in
  let t21 := inserirNaHash (inserirNaHash t (Some p2) (Some s2)) (Some p1) (Some s1) in
  (∀ q, encontrarSuspeito t12 (Some q) = encontrarSuspeito t21 (Some q)) ∧
  (encontrarSuspeito t (Some p1) = None → encontrarSuspeito t (Some p2) = None →
   hash_func p1 = hash_func p2 → t12 ≠ t21).
Proof.
  intros Hlen Hne t12 t21. split.
  - intros q. unfold t12, t21.
    rewrite !encontrar_inserir by (by rewrite ?length_inserirNaHash).
    repeat case_decide; congruence.
  - intros H1 H2 Hh Heq.
    assert (bucket t12 (hash_func p2) = bucket t21 (hash_func p2)) as Hb by (by rewrite Heq).
    pose proof (hash_func_index t p1 Hlen) as Hi1.
    pose proof (hash_func_range p1) as Hr.
    assert (∀ t0 chain, length t0 = Z.to_nat HASH_SIZE →
              bucket (<[Z.to_nat (hash_func p1):=chain]> t0) (hash_func p1) = chain)
      as Hsame.
    { intros t0 chain Hl0. rewrite <- (Z2Nat.id (hash_func p1)) at 2 by lia.
      apply bucket_insert_eq. rewrite Hl0. unfold HASH_SIZE in *. lia. }
    assert (∀ a b sa sb, a ≠ b → hash_func a = hash_func p1 → hash_func b = hash_func p1 →
              encontrarSuspeito t (Some a) = None → encontrarSuspeito t (Some b) = None →
              bucket (inserirNaHash (inserirNaHash t (Some a) (Some sa)) (Some b) (Some sb))
                     (hash_func p1) =
              mkEntry b sb :: mkEntry a sa :: bucket t (hash_func p1)) as Hgo.
    { intros a b sa sb Hab Ha Hb' Hna Hnb.
      assert (encontrarSuspeito (inserirNaHash t (Some a) (Some sa)) (Some b) = None) as Hnb'.
      { rewrite encontrar_inserir by done. by rewrite decide_False by congruence. }
      simpl in Hna, Hnb'. simpl. rewrite Ha, Hb' in *.
      apply substituir_None with (s := sa) in Hna. rewrite Hna in Hnb' |- *.
      rewrite Hsame in Hnb' |- * by done.
      apply substituir_None with (s := sb) in Hnb'. rewrite Hnb'.
      by rewrite Hsame by (by rewrite length_insert). }
    rewrite <- Hh in Hb. unfold t12, t21 in Hb.
    rewrite (Hgo p1 p2 s1 s2) in Hb by done.
    rewrite (Hgo p2 p1 s2 s1) in Hb by done.
    by injection Hb.
Qed.

Lemma inserirNaHash_order_irrelevant_witness :
  let t12 := inserirNaHash (inserirNaHash tabela_vazia (Some "Carta rasgada") (Some "Sr. Preto"))
               (Some "Pegada pequena") (Some "Sra. Rosa") in
  let t21 := inserirNaHash (inserirNaHash tabela_vazia (Some "Pegada pequena") (Some "Sra. Rosa"))
               (Some "Carta rasgada") (Some "Sr. Preto") in
  length tabela_vazia = Z.to_nat HASH_SIZE ∧
  hash_func "Carta rasgada" = hash_func "Pegada pequena" ∧
  t12 ≠ t21 ∧
  encontrarSuspeito t12 (Some "Carta rasgada") = encontrarSuspeito t21 (Some "Carta rasgada").
Proof.
  intros t12 t21.
  assert (hash_func "Carta rasgada" = hash_func "Pegada pequena") as Hh by (by vm_compute).
  destruct (inserirNaHash_order_irrelevant tabela_vazia
              "Carta rasgada" "Pegada pequena" "Sr. Preto" "Sra. Rosa"
              length_tabela_vazia ltac:(done)) as (H1 & H2).
  split; [apply length_tabela_vazia|]. split; [exact Hh|].
  split; [|exact (H1 "Carta rasgada")].
  apply H2; [by vm_compute|by vm_compute|exact Hh].
Defined.

(** * The judgment on the memory *)

Section Memory.

Implicit Types (w : Ptr.Mundo) (fuel : nat) (p cur root : Ptr.ptr).

(** ** The judgment writes to no cell *)

Lemma ptr_procurar_frame fuel cur (pista : string) w r w' :
  Ptr.procurar fuel cur pista w = Some (r, w') → w' = w.
Proof.
  revert cur w. induction fuel as [|fuel IH]; intros cur w; simpl; [done|].
  destruct (Nat.eqb cur Ptr.NULL); [by intros [= _ <-]|].
  unfold Ptr.bind, Ptr.load_entry.
  destruct (Ptr.hash_entries (Ptr.memoria w) !! cur) as [e|]; [|done].
  destruct (streq (Ptr.entry_key e) pista); [by intros [= _ <-]|].
  apply IH.
Qed.

Lemma ptr_encontrar_frame fuel (pista : option string) w r w' :
  Ptr.encontrarSuspeito fuel pista w = Some (r, w') → w' = w.
Proof.
  destruct pista as [p|]; simpl; [|by intros [= _ <-]].
  unfold Ptr.bind, Ptr.load_slot.
  destruct (Ptr.table_slots (Ptr.memoria w) !! _) as [cur|]; [|done].
  apply ptr_procurar_frame.
Qed.

Lemma ptr_bind_Some {A B : Type} (m : Ptr.M A) (f : A → Ptr.M B) w (b : B) w' :
  Ptr.bind m f w = Some (b, w') →
  ∃ a w1, m w = Some (a, w1) ∧ f a w1 = Some (b, w').
Proof.
  unfold Ptr.bind. destruct (m w) as [[a w1]|]; [|done]. eauto.
Qed.

Lemma ptr_load_node_Some p w (cell : Ptr.ClueCell) w' :
  Ptr.load_node p w = Some (cell, w') →
  Ptr.clue_nodes (Ptr.memoria w) !! p = Some cell ∧ w' = w.
Proof.
  unfold Ptr.load_node.
  destruct (Ptr.clue_nodes (Ptr.memoria w) !! p); [|done]. by intros [= -> ->].
Qed.

Lemma ptr_emit_Some (e : Event) w (u : unit) w' :
  Ptr.emit e w = Some (u, w') → w' = acrescenta w [e].
Proof. unfold Ptr.emit. by intros [= _ <-]. Qed.

Lemma ptr_count_frame fuel root (suspect : string) w n w' :
  Ptr.count_clues_for_suspect fuel root suspect w = Some (n, w') →
  Ptr.memoria w' = Ptr.memoria w ∧ Ptr.entrada w' = Ptr.entrada w.
Proof.
  revert root w n w'. induction fuel as [|fuel IH]; intros root w n w' H; [done|].
  cbn [Ptr.count_clues_for_suspect] in H.
  destruct (Nat.eqb root Ptr.NULL); [by injection H as _ <-|].
  apply ptr_bind_Some in H as (node & w1 & Hn & H).
  apply ptr_load_node_Some in Hn as [_ ->].
  apply ptr_bind_Some in H as (n1 & w2 & H1 & H). apply IH in H1 as [M1 I1].
  apply ptr_bind_Some in H as (u & w3 & He & H). apply ptr_emit_Some in He as ->.
  apply ptr_bind_Some in H as (s & w4 & Hs & H). apply ptr_encontrar_frame in Hs as ->.
  apply ptr_bind_Some in H as (n2 & w5 & H2 & H). apply IH in H2 as [M2 I2].
  injection H as _ <-. cbn [acrescenta Ptr.memoria Ptr.entrada] in M2, I2.
  split; congruence.
Qed.

Lemma ptr_listar_frame fuel root w (u : unit) w' :
  Ptr.listarPistas fuel root w = Some (u, w') →
  Ptr.memoria w' = Ptr.memoria w ∧ Ptr.entrada w' = Ptr.entrada w.
Proof.
  revert root w u w'. induction fuel as [|fuel IH]; intros root w u w' H; [done|].
  cbn [Ptr.listarPistas] in H.
  destruct (Nat.eqb root Ptr.NULL); [by injection H as _ <-|].
  apply ptr_bind_Some in H as (node & w1 & Hn & H).
  apply ptr_load_node_Some in Hn as [_ ->].
  apply ptr_bind_Some in H as (u1 & w2 & H1 & H). apply IH in H1 as [M1 I1].
  apply ptr_bind_Some in H as (u2 & w3 & He & H). apply ptr_emit_Some in He as ->.
  apply IH in H as [M2 I2]. cbn [acrescenta Ptr.memoria Ptr.entrada] in M2, I2.
  split; congruence.
Qed.

Lemma ptr_verificar_frame fuel (collected : Ptr.ptr) w (u : unit) w' :
  Ptr.verificarSuspeitoFinal fuel collected w = Some (u, w') →
  Ptr.memoria w' = Ptr.memoria w.
Proof.
  unfold Ptr.verificarSuspeitoFinal. intros H.
  destruct (Nat.eqb collected Ptr.NULL).
  { by apply ptr_emit_Some in H as ->. }
  apply ptr_bind_Some in H as (u1 & w1 & He & H). apply ptr_emit_Some in He as ->.
  apply ptr_bind_Some in H as (u2 & w2 & Hl & H). apply ptr_listar_frame in Hl as [M1 I1].
  apply ptr_bind_Some in H as (u3 & w3 & He & H). apply ptr_emit_Some in He as ->.
  apply ptr_bind_Some in H as (line & w4 & Hf & H).
  assert (Ptr.memoria w4 = Ptr.memoria w) as M4.
  { unfold Ptr.fgets in Hf. cbn [acrescenta Ptr.entrada Ptr.memoria] in Hf.
    destruct (Ptr.entrada w2); injection Hf as _ <-; cbn [Ptr.memoria]; exact M1. }
  destruct line as [buf|]; [|by injection H as _ <-].
  destruct (strlen (trim_newline buf) =? 0).
  { by apply ptr_emit_Some in H as ->. }
  apply ptr_bind_Some in H as (n & w5 & Hc & H). apply ptr_count_frame in Hc as [M5 I5].
  apply ptr_bind_Some in H as (u4 & w6 & He & H). apply ptr_emit_Some in He as ->.
  apply ptr_bind_Some in H as (u5 & w7 & He & H). apply ptr_emit_Some in He as ->.
  destruct (n >=? 2); apply ptr_emit_Some in H as ->;
    cbn [acrescenta Ptr.memoria]; congruence.
Qed.

(** ** On a memory that holds a ledger and an index, the judgment returns
    what the judgment on the values returns *)

Lemma acrescenta_nil w : acrescenta w [] = w.
Proof. destruct w as [m i o]. unfold acrescenta. simpl. by rewrite app_nil_r. Qed.

Lemma acrescenta_app w (a b : list Event) :
  acrescenta (acrescenta w a) b = acrescenta w (a ++ b).
Proof. unfold acrescenta. simpl. by rewrite app_assoc. Qed.

Lemma ptr_procurar_ref (entries : gmap nat Ptr.EntryCell) cur (chain : list HashEntry)
  (pista : string) :
  rep_chain entries cur chain →
  ∀ fuel w, Ptr.hash_entries (Ptr.memoria w) = entries →
    (length chain < fuel)%nat →
    Ptr.procurar fuel cur pista w = Some (procurar chain pista, w).
Proof.
  induction 1 as [|p k s pn next Hp Hcell Hnext IH]; intros fuel w Hm Hf.
  - destruct fuel as [|fuel]; [lia|]. done.
  - destruct fuel as [|fuel]; [simpl in Hf; lia|].
    cbn [Ptr.procurar procurar].
    rewrite (proj2 (Nat.eqb_neq p Ptr.NULL) Hp).
    unfold Ptr.bind, Ptr.load_entry. rewrite Hm, Hcell.
    cbn [Ptr.entry_key Ptr.entry_suspect Ptr.entry_next key suspect].
    destruct (streq k pista); [done|].
    apply IH; [done|]. simpl in Hf. lia.
Qed.

Lemma length_chain_le_concat (t : Table) (i : nat) (chain : list HashEntry) :
  t !! i = Some chain → (length chain ≤ length (concat t))%nat.
Proof.
  intros Hi. rewrite <- (take_drop_middle t i chain Hi).
  rewrite concat_app, concat_cons, !length_app. lia.
Qed.

Lemma ptr_encontrar_ref (t : Table) (pista : string) fuel w :
  rep_table (Ptr.memoria w) t →
  (length (concat t) < fuel)%nat →
  Ptr.encontrarSuspeito fuel (Some pista) w =
  Some (encontrarSuspeito t (Some pista), w).
Proof.
  intros [Hlen Hrep] Hf. cbn [Ptr.encontrarSuspeito encontrarSuspeito].
  pose proof (hash_func_index t pista Hlen) as Hi.
  pose proof (bucket_lookup t (hash_func pista) Hi) as Hb.
  destruct (Forall2_lookup_r _ _ _ _ _ Hrep Hb) as (cur & Hcur & Hchain).
  unfold Ptr.bind, Ptr.load_slot. rewrite Hcur.
  apply (ptr_procurar_ref _ _ _ _ Hchain); [done|].
  pose proof (length_chain_le_concat _ _ _ Hb). lia.
Qed.

Lemma ptr_count_ref (mem : Ptr.Memoria) (t : Table) (suspect : string)
  root (T : ClueNode) :
  rep_table mem t →
  rep_tree (Ptr.clue_nodes mem) root T →
  ∀ fuel w, Ptr.memoria w = mem →
    (altura T + length (concat t) < fuel)%nat →
    Ptr.count_clues_for_suspect fuel root suspect w =
    Some ((count_clues_for_suspect T t suspect).1,
          acrescenta w (count_clues_for_suspect T t suspect).2).
Proof.
  intros Ht.
  induction 1 as [|p k pl pr tl tr Hp Hcell Hl IHl Hr IHr]; intros fuel w Hm Hf.
  - destruct fuel as [|fuel]; [lia|]. cbn. by rewrite acrescenta_nil.
  - destruct fuel as [|fuel]; [lia|]. cbn [altura] in Hf.
    cbn [Ptr.count_clues_for_suspect].
    rewrite (proj2 (Nat.eqb_neq p Ptr.NULL) Hp).
    unfold Ptr.bind at 1. unfold Ptr.load_node. rewrite Hm, Hcell.
    cbn [Ptr.node_clue Ptr.node_left Ptr.node_right].
    unfold Ptr.bind at 1. rewrite (IHl fuel w Hm) by lia.
    unfold Ptr.bind at 1. unfold Ptr.emit at 1.
    unfold Ptr.bind at 1.
    rewrite (ptr_encontrar_ref t k fuel) by (cbn [acrescenta Ptr.memoria]; by rewrite ?Hm || lia).
    unfold Ptr.bind at 1.
    rewrite (IHr fuel) by (cbn [acrescenta Ptr.memoria]; done || lia).
    unfold Ptr.ret. rewrite !count_clues_eq. cbn [fst snd inorder].
    f_equal. f_equal.
    + unfold apontam_para.
      rewrite filter_app, filter_cons, !length_app.
      destruct (encontrarSuspeito t (Some k)) as [s|] eqn:E.
      * destruct (streq s suspect) eqn:Es.
        -- apply streq_true in Es as ->. rewrite decide_True by done. simpl. lia.
        -- apply streq_false in Es. rewrite decide_False by congruence. lia.
      * rewrite decide_False by done. lia.
    + unfold acrescenta. cbn [Ptr.memoria Ptr.entrada Ptr.saida].
      f_equal. rewrite fmap_app, fmap_cons, <- !app_assoc. done.
Qed.

Lemma ptr_listar_ref (mem : Ptr.Memoria) root (T : ClueNode) :
  rep_tree (Ptr.clue_nodes mem) root T →
  ∀ fuel w, Ptr.memoria w = mem →
    (altura T < fuel)%nat →
    Ptr.listarPistas fuel root w = Some (tt, acrescenta w (listarPistas T).2).
Proof.
  induction 1 as [|p k pl pr tl tr Hp Hcell Hl IHl Hr IHr]; intros fuel w Hm Hf.
  - destruct fuel as [|fuel]; [lia|]. cbn. by rewrite acrescenta_nil.
  - destruct fuel as [|fuel]; [lia|]. cbn [altura] in Hf.
    cbn [Ptr.listarPistas].
    rewrite (proj2 (Nat.eqb_neq p Ptr.NULL) Hp).
    unfold Ptr.bind at 1. unfold Ptr.load_node. rewrite Hm, Hcell.
    cbn [Ptr.node_clue Ptr.node_left Ptr.node_right].
    unfold Ptr.bind at 1. rewrite (IHl fuel w Hm) by lia.
    unfold Ptr.bind at 1. unfold Ptr.printf, Ptr.emit.
    rewrite (IHr fuel) by (cbn [acrescenta Ptr.memoria]; done || lia).
    rewrite !listarPistas_inorder. cbn [snd inorder].
    unfold acrescenta. cbn [Ptr.memoria Ptr.entrada Ptr.saida].
    do 3 f_equal. rewrite fmap_app, fmap_cons, <- !app_assoc. done.
Qed.

Lemma rep_tree_NULL (nodes : gmap nat Ptr.ClueCell) root (T : ClueNode) :
  rep_tree nodes root T → (root = Ptr.NULL ↔ T = ClueNULL).
Proof. destruct 1; split; done. Qed.

Lemma ptr_verificar_ref (m : Room) (t : Table) (T : ClueNode) (collected : Ptr.ptr)
  fuel w :
  rep_tree (Ptr.clue_nodes (Ptr.memoria w)) collected T →
  rep_table (Ptr.memoria w) t →
  (combustivel T t ≤ fuel)%nat →
  let valor := verificarSuspeitoFinal (mkSessao m t T (Ptr.entrada w)) in
  Ptr.verificarSuspeitoFinal fuel collected w =
  Some (tt, Ptr.mkMundo (Ptr.memoria w) (stdin valor.1) (Ptr.saida w ++ valor.2)).
Proof.
  intros HT Ht Hf valor. unfold valor, combustivel in *.
  unfold Ptr.verificarSuspeitoFinal.
  destruct T as [|k l r].
  { apply rep_tree_NULL in HT as [_ ->]; [|done]. by rewrite verificar_sem_pistas. }
  assert (collected ≠ Ptr.NULL) as Hc.
  { intros H. by apply (rep_tree_NULL _ _ _ HT) in H. }
  rewrite (proj2 (Nat.eqb_neq collected Ptr.NULL) Hc).
  unfold Ptr.bind at 1. unfold Ptr.printf at 1. unfold Ptr.emit at 1.
  unfold Ptr.bind at 1.
  rewrite (ptr_listar_ref (Ptr.memoria w) collected _ HT) by (done || lia).
  unfold Ptr.bind at 1. unfold Ptr.printf at 1. unfold Ptr.emit at 1.
  unfold Ptr.bind at 1. unfold Ptr.fgets.
  cbn [acrescenta Ptr.memoria Ptr.entrada Ptr.saida].
  rewrite listarPistas_inorder. cbn [snd].
  destruct (Ptr.entrada w) as [|buf rest] eqn:Ein.
  { rewrite verificar_eof by done. unfold Ptr.ret, preambulo. cbn [fst snd stdin].
    do 3 f_equal. rewrite <- ?app_assoc. cbn [app]. by rewrite <- ?app_assoc. }
  destruct (strlen (trim_newline buf) =? 0) eqn:Es.
  { apply strlen_zero in Es. rewrite verificar_vazio by done.
    unfold Ptr.printf, Ptr.emit, preambulo. cbn [fst snd stdin Ptr.memoria Ptr.entrada Ptr.saida].
    do 3 f_equal. rewrite <- ?app_assoc. cbn [app]. by rewrite <- ?app_assoc. }
  assert (trim_newline buf ≠ "") as Hb.
  { intros H. apply strlen_zero in H. congruence. }
  rewrite verificar_acusacao by done. cbn [fst snd stdin].
  unfold Ptr.bind at 1.
  rewrite (ptr_count_ref (Ptr.memoria w) t (trim_newline buf) collected _ Ht HT)
    by (done || lia).
  rewrite count_clues_eq. cbn [fst snd].
  unfold Ptr.bind, Ptr.printf, Ptr.emit, acrescenta, preambulo.
  cbn [Ptr.memoria Ptr.entrada Ptr.saida].
  set (count := Z.of_nat _).
  assert ((if count >=? 2 then Ptr.emit (Printf MsgAcusacaoValida)
           else Ptr.emit (Printf MsgAcusacaoFraca)) =
          Ptr.emit (Printf (if decide (2 <= count) then MsgAcusacaoValida
                            else MsgAcusacaoFraca))) as Hv.
  { destruct (count >=? 2) eqn:Ec.
    - rewrite decide_True; [done|lia].
    - rewrite decide_False; [done|lia]. }
  fold (Ptr.emit (Printf MsgAcusacaoValida)). fold (Ptr.emit (Printf MsgAcusacaoFraca)).
  rewrite Hv. unfold Ptr.emit. cbn [Ptr.memoria Ptr.entrada Ptr.saida].
  do 3 f_equal. rewrite <- ?app_assoc. cbn [app]. by rewrite <- ?app_assoc.
Qed.

End Memory.

(** C8. The judgment writes to neither the ledger nor the index. On the
    memory of the program, where the nodes of the ledger, the entries of
    the index and the array of the chains are cells reached through
    pointers, every run of [verificarSuspeitoFinal] that returns leaves
    the whole memory as it found it, and so does every run of
    [count_clues_for_suspect], which does not touch the standard input
    either; whatever ledger and table the memory held before the call, it
    holds them after it. Moreover, when the memory holds a ledger and a
    table, the run does return, given fuel for the height of the ledger
    and the entries of the table, and it reads and prints exactly what the
    judgment on these values does. *)
Theorem verdict_reads_only :
  (∀ (fuel : nat) (collected : Ptr.ptr) (w w' : Ptr.Mundo) (u : unit),
     Ptr.verificarSuspeitoFinal fuel collected w = Some (u, w') →
     Ptr.memoria w' = Ptr.memoria w ∧
     (∀ p T, rep_tree (Ptr.clue_nodes (Ptr.memoria w)) p T ↔
             rep_tree (Ptr.clue_nodes (Ptr.memoria w')) p T) ∧
     (∀ t, rep_table (Ptr.memoria w) t ↔ rep_table (Ptr.memoria w') t)) ∧
  (∀ (fuel : nat) (root : Ptr.ptr) (suspect : string) (w w' : Ptr.Mundo) (n : Z),
     Ptr.count_clues_for_suspect fuel root suspect w = Some (n, w') →
     Ptr.memoria w' = Ptr.memoria w ∧ Ptr.entrada w' = Ptr.entrada w) ∧
  (∀ (t : Table) (T : ClueNode) (root : Ptr.ptr) (suspect : string)
     (fuel : nat) (w : Ptr.Mundo),
     rep_tree (Ptr.clue_nodes (Ptr.memoria w)) root T →
     rep_table (Ptr.memoria w) t →
     (altura T + length (concat t) < fuel)%nat →
     let valor := count_clues_for_suspect T t suspect in
     Ptr.count_clues_for_suspect fuel root suspect w =
     Some (valor.1,
           Ptr.mkMundo (Ptr.memoria w) (Ptr.entrada w) (Ptr.saida w ++ valor.2))) ∧
  (∀ (m : Room) (t : Table) (T : ClueNode) (collected : Ptr.ptr)
     (fuel : nat) (w : Ptr.Mundo),
     rep_tree (Ptr.clue_nodes (Ptr.memoria w)) collected T →
     rep_table (Ptr.memoria w) t →
     (combustivel T t ≤ fuel)%nat →
     let valor := verificarSuspeitoFinal (mkSessao m t T (Ptr.entrada w)) in
     Ptr.verificarSuspeitoFinal fuel collected w =
     Some (tt, Ptr.mkMundo (Ptr.memoria w) (stdin valor.1) (Ptr.saida w ++ valor.2))).
Proof.
  split; [|split; [|split]].
  - intros fuel collected w w' u H.
    apply ptr_verificar_frame in H. rewrite H. done.
  - intros fuel root suspect w w' n H. by apply (ptr_count_frame _ _ _ _ _ _ H).
  - intros t T root suspect fuel w HT Ht Hf valor.
    by apply (ptr_count_ref (Ptr.memoria w) t suspect root T Ht HT).
  - intros m t T collected fuel w HT Ht Hf. by apply ptr_verificar_ref.
Qed.

Lemma verdict_reads_only_witness :
  let nodes : gmap nat Ptr.ClueCell :=
    {[ 1%nat := Ptr.mkClueCell "Vidro quebrado" 2%nat Ptr.NULL;
       2%nat := Ptr.mkClueCell "Livro deslocado" Ptr.NULL Ptr.NULL ]} in
  let entries : gmap nat Ptr.EntryCell :=
    {[ 1%nat := Ptr.mkEntryCell "Vidro quebrado" "Sra. Rosa" Ptr.NULL;
       2%nat := Ptr.mkEntryCell "Livro deslocado" "Sra. Rosa" Ptr.NULL ]} in
  let slots : list Ptr.ptr :=
    <[Z.to_nat (hash_func "Livro deslocado") := 2%nat]>
      (<[Z.to_nat (hash_func "Vidro quebrado") := 1%nat]>
         (replicate (Z.to_nat HASH_SIZE) Ptr.NULL)) in
  let mem := Ptr.mkMemoria nodes entries slots in
  let T := inserirPistas ["Vidro quebrado"; "Livro deslocado"] ClueNULL in
  let t := inserirAssociacoes
             [("Vidro quebrado", "Sra. Rosa"); ("Livro deslocado", "Sra. Rosa")]
             tabela_vazia in
  rep_tree nodes 1%nat T ∧ rep_table mem t ∧
  ∃ w', Ptr.verificarSuspeitoFinal 8 1%nat (Ptr.mkMundo mem [linha "Sra. Rosa"] []) =
        Some (tt, w') ∧
        Ptr.memoria w' = mem ∧ Ptr.entrada w' = [] ∧
        veredito_de (Ptr.saida w') = Some SUPPORTED.
Proof.
  intros nodes entries slots mem T t.
  assert (rep_tree nodes 1%nat T) as HT.
  { change T with (ClueTree "Vidro quebrado"
                     (ClueTree "Livro deslocado" ClueNULL ClueNULL) ClueNULL).
    eapply rep_tree_node; [done|by vm_compute| |apply rep_tree_null].
    eapply rep_tree_node; [done|by vm_compute|apply rep_tree_null|apply rep_tree_null]. }
  assert (rep_table mem t) as Ht.
  { split; [by vm_compute|].
    assert (t = <[Z.to_nat (hash_func "Livro deslocado") :=
                    [mkEntry "Livro deslocado" "Sra. Rosa"]]>
                  (<[Z.to_nat (hash_func "Vidro quebrado") :=
                       [mkEntry "Vidro quebrado" "Sra. Rosa"]]>
                     (replicate (Z.to_nat HASH_SIZE) []))) as ->
      by (vm_compute; reflexivity).
    cbn [mem Ptr.table_slots Ptr.hash_entries]. unfold slots.
    apply Forall2_insert; [apply Forall2_insert|].
    - apply Forall2_replicate. apply rep_chain_null.
    - eapply rep_chain_entry; [done|by vm_compute|apply rep_chain_null].
    - eapply rep_chain_entry; [done|by vm_compute|apply rep_chain_null]. }
  split; [exact HT|]. split; [exact Ht|].
  destruct verdict_reads_only as (_ & _ & _ & H).
  specialize (H RoomNULL t T 1%nat 8%nat (Ptr.mkMundo mem [linha "Sra. Rosa"] []) HT Ht).
  eexists. split; [apply H; vm_compute; lia|].
  split; [done|]. split; by vm_compute.
Defined.
